(** * libmemtrack: per-process memory accounting (memtrack.cpp)

    A shallow embedding of [memtrack.cpp] and the properties of its
    aggregation, fetching and population code.

    Layout: machine integers, the data model, the aggregator
    ([memtrack_proc_sum] and the six category queries), the service locator and
    the record fetcher ([memtrack_proc_get_type]) in a state monad over the
    function-local statics and the trace of calls that leave the process, the
    population loop ([memtrack_proc_get]), the build-time encoding assertions,
    and then the theorems. *)

From Stdlib Require Import ZArith Lia String.
From stdpp Require Import base tactics option list numbers.

#[local] Open Scope Z_scope.

(** ** Machine integers *)

(** Conversion to an unsigned integer type of [w] bits. *)
Definition to_unsigned (w z : Z) : Z := z mod 2 ^ w.

(** Conversion to a signed (two's complement) integer type of [w] bits. *)
Definition to_signed (w z : Z) : Z := (z + 2 ^ (w - 1)) mod 2 ^ w - 2 ^ (w - 1).

Definition to_uint32 : Z → Z := to_unsigned 32.
Definition to_uint64 : Z → Z := to_unsigned 64.
Definition to_int : Z → Z := to_signed 32.

(** [EINVAL] of errno.h. *)
Definition EINVAL : Z := 22.

(** ** Data model *)

(** Modelled from the spec: the enumerators of [MemtrackType], whose
    declaration (the V1_0 interface header) is not among the sources.  The spec
    lists them in enumeration order, followed by the count [NUM_TYPES]. *)
Inductive MemtrackType : Set := OTHER | GL | GRAPHICS | MULTIMEDIA | CAMERA.

(** Modelled from the spec: the bits of [MemtrackFlag], declared in the same
    absent header. *)
Inductive MemtrackFlag : Set :=
  | SMAPS_ACCOUNTED | SMAPS_UNACCOUNTED | SHARED | SHARED_PSS | PRIVATE
  | SYSTEM | DEDICATED | NONSECURE | SECURE.

Definition all_MemtrackType : list MemtrackType :=
  [OTHER; GL; GRAPHICS; MULTIMEDIA; CAMERA].

Definition all_MemtrackFlag : list MemtrackFlag :=
  [SMAPS_ACCOUNTED; SMAPS_UNACCOUNTED; SHARED; SHARED_PSS; PRIVATE;
   SYSTEM; DEDICATED; NONSECURE; SECURE].

(** The two generations of the interface, each with its own numbering of the
    enumerators.  The interface headers are not among the sources; the
    numberings below are the ones they declare.  Only the scenarios and the
    instances the theorems are run on depend on the numbers chosen for the
    flags. *)
Module V1_0.
(** Modelled from the spec: [static_cast<uint32_t>(V1_0::MemtrackType::x)], an
    enum class over uint32_t numbered from 0 in the enumeration order of the
    spec; [memtrack_proc_get] runs through it as 0 .. NUM_TYPES - 1. *)
Definition MemtrackType_val (t : MemtrackType) : Z :=
  match t with
  | OTHER => 0 | GL => 1 | GRAPHICS => 2 | MULTIMEDIA => 3 | CAMERA => 4
  end.

Definition NUM_TYPES : Z := 5.

(** [static_cast<uint32_t>(V1_0::MemtrackFlag::x)]: bit k+1 for the k-th
    flag. *)
Definition MemtrackFlag_val (f : MemtrackFlag) : Z :=
  match f with
  | SMAPS_ACCOUNTED => Z.shiftl 1 1
  | SMAPS_UNACCOUNTED => Z.shiftl 1 2
  | SHARED => Z.shiftl 1 3
  | SHARED_PSS => Z.shiftl 1 4
  | PRIVATE => Z.shiftl 1 5
  | SYSTEM => Z.shiftl 1 6
  | DEDICATED => Z.shiftl 1 7
  | NONSECURE => Z.shiftl 1 8
  | SECURE => Z.shiftl 1 9
  end.

(** Modelled from the spec: [V1_0::MemtrackRecord], a size and a set of flags;
    in this interface [sizeInBytes] is a uint64_t and [flags] a uint32_t. *)
Record MemtrackRecord : Set := mkRecord { sizeInBytes : Z; flags : Z }.

Inductive MemtrackStatus : Set :=
  | SUCCESS | MEMORY_TRACKING_NOT_SUPPORTED | TYPE_NOT_SUPPORTED.
End V1_0.

Module V_aidl.
(** The AIDL enum is backed by a (signed) int. *)
Definition MemtrackType_val (t : MemtrackType) : Z :=
  match t with
  | OTHER => 0 | GL => 1 | GRAPHICS => 2 | MULTIMEDIA => 3 | CAMERA => 4
  end.

(** [V_aidl::MemtrackRecord::FLAG_x], constants of type int. *)
Definition MemtrackFlag_val (f : MemtrackFlag) : Z :=
  match f with
  | SMAPS_ACCOUNTED => 2
  | SMAPS_UNACCOUNTED => 4
  | SHARED => 8
  | SHARED_PSS => 16
  | PRIVATE => 32
  | SYSTEM => 64
  | DEDICATED => 128
  | NONSECURE => 256
  | SECURE => 512
  end.

(** Modelled from the spec: [V_aidl::MemtrackRecord], a size and a set of
    flags; AIDL has no unsigned types, [sizeInBytes] is a long (int64_t) and
    [flags] an int (int32_t). *)
Record MemtrackRecord : Set := mkRecord { sizeInBytes : Z; flags : Z }.
End V_aidl.

(** The file works with the V1_0 names ([using ...::V1_0::MemtrackType] and so
    on).  A value of the enum class is its underlying uint32_t. *)
Import V1_0.

#[global] Instance MemtrackRecord_inhabited : Inhabited MemtrackRecord :=
  populate (mkRecord 0 0).

#[global] Instance MemtrackStatus_eq_dec : EqDecision MemtrackStatus.
Proof. solve_decision. Defined.

(** [struct memtrack_proc_type]. *)
Record memtrack_proc_type : Set := mkProcType {
  type : Z;
  records : list MemtrackRecord
}.

(** [struct memtrack_proc]; [types] is the array of [NUM_TYPES] entries. *)
Record memtrack_proc : Set := mkProc {
  pid : Z;
  types : list memtrack_proc_type
}.

(** Assignments to one member. *)
Definition set_records (v : list MemtrackRecord) (t : memtrack_proc_type)
  : memtrack_proc_type := mkProcType (type t) v.
Definition set_pid (v : Z) (p : memtrack_proc) : memtrack_proc :=
  mkProc v (types p).
Definition set_types (v : list memtrack_proc_type) (p : memtrack_proc)
  : memtrack_proc := mkProc (pid p) v.

#[global] Instance memtrack_proc_type_inhabited : Inhabited memtrack_proc_type :=
  populate (mkProcType 0 []).

(** The array in [memtrack_proc] has exactly [NUM_TYPES] entries. *)
Definition proc_wf (p : memtrack_proc) : Prop :=
  length (types p) = Z.to_nat NUM_TYPES.

(** [memtrack_proc_new]: [new memtrack_proc()] value-initialises the object,
    the pid and every [type] are zero and every vector is empty. *)
Definition memtrack_proc_new : memtrack_proc :=
  mkProc 0 (replicate (Z.to_nat NUM_TYPES) (mkProcType 0 [])).

(** ** Aggregator *)

Section Aggregator.
(** The width of [ssize_t]: 64 on LP64 targets, 32 on ILP32 ones. *)
Variable ssize_bits : Z.

Definition to_ssize : Z → Z := to_signed ssize_bits.

(** [sum += size] with [sum] an ssize_t and [size] a uint64_t: both operands
    are converted to uint64_t, added there, and the result converted back. *)
Definition ssize_add_uint64 (sum size : Z) : Z :=
  to_ssize (to_uint64 (to_uint64 sum + size)).

(** The test of the inner loop, [(records[j].flags & flags) == flags]. *)
Definition flags_match (flags : Z) (r : MemtrackRecord) : bool :=
  Z.land (V1_0.flags r) flags =? flags.

(** The inner loop over one type's records. *)
Fixpoint sum_records (flags : Z) (recs : list MemtrackRecord) (sum : Z) : Z :=
  match recs with
  | [] => sum
  | r :: recs' =>
      sum_records flags recs'
        (if flags_match flags r then ssize_add_uint64 sum (sizeInBytes r)
         else sum)
  end.

(** [p->types[static_cast<int>(t)]]: [None] stands for an index outside the
    array, where the source has no defined behaviour. *)
Definition types_at (p : memtrack_proc) (t : Z) : option memtrack_proc_type :=
  let i := to_int t in
  if (0 <=? i) && (i <? NUM_TYPES) then types p !! Z.to_nat i else None.

(** The outer loop of [memtrack_proc_sum]. *)
Fixpoint sum_types (p : memtrack_proc) (ts : list Z) (flags : Z) (sum : Z)
  : option Z :=
  match ts with
  | [] => Some sum
  | t :: ts' =>
      match types_at p t with
      | Some ty => sum_types p ts' flags (sum_records flags (records ty) sum)
      | None => None
      end
  end.

Definition memtrack_proc_sum (p : memtrack_proc) (ts : list Z) (flags : Z)
  : option Z :=
  sum_types p ts flags 0.

Definition memtrack_proc_graphics_total (p : memtrack_proc) : option Z :=
  memtrack_proc_sum p [MemtrackType_val GRAPHICS] 0.

Definition memtrack_proc_graphics_pss (p : memtrack_proc) : option Z :=
  memtrack_proc_sum p [MemtrackType_val GRAPHICS]
    (to_uint32 (MemtrackFlag_val SMAPS_UNACCOUNTED)).

Definition memtrack_proc_gl_total (p : memtrack_proc) : option Z :=
  memtrack_proc_sum p [MemtrackType_val GL] 0.

Definition memtrack_proc_gl_pss (p : memtrack_proc) : option Z :=
  memtrack_proc_sum p [MemtrackType_val GL]
    (to_uint32 (MemtrackFlag_val SMAPS_UNACCOUNTED)).

Definition memtrack_proc_other_total (p : memtrack_proc) : option Z :=
  memtrack_proc_sum p
    [MemtrackType_val MULTIMEDIA; MemtrackType_val CAMERA; MemtrackType_val OTHER] 0.

Definition memtrack_proc_other_pss (p : memtrack_proc) : option Z :=
  memtrack_proc_sum p
    [MemtrackType_val MULTIMEDIA; MemtrackType_val CAMERA; MemtrackType_val OTHER]
    (to_uint32 (MemtrackFlag_val SMAPS_UNACCOUNTED)).
End Aggregator.

(** ** The world outside: providers, statics and the trace *)

(** What leaves the process, in the order it happens. *)
Inductive event : Type :=
  | EvIsDeclared                      (* AServiceManager_isDeclared *)
  | EvWaitForService                  (* AServiceManager_waitForService *)
  | EvGetService                      (* V1_0::IMemtrack::getService *)
  | EvLogE (msg : string)             (* ALOGE *)
  | EvAidlGetMemory (pid type : Z)    (* V_aidl::IMemtrack::getMemory *)
  | EvHidlGetMemory (pid type : Z).   (* V1_0::IMemtrack::getMemory *)

(** The answer of the modern provider: the binder status and the out-parameter
    it filled. *)
Record aidl_reply : Type := mkAidlReply {
  status_isOk : bool;
  aidl_records : list V_aidl.MemtrackRecord
}.

(** The answer of the legacy provider: the arguments it invoked the callback
    with (if it invoked it) and whether the transaction itself went through
    ([Return<void>::isOk]). *)
Record hidl_reply : Type := mkHidlReply {
  callback_args : option (MemtrackStatus * list MemtrackRecord);
  ret_isOk : bool
}.

(** A provider answers a call knowing everything that happened before. *)
Definition aidl_service : Type := list event → Z → Z → aidl_reply.
Definition hidl_service : Type := list event → Z → Z → hidl_reply.

(** What the service managers answer.  Each is asked at most once per process,
    because the results are kept in function-local statics. *)
Record platform : Type := mkPlatform {
  isDeclared : bool;
  waitForService : option aidl_service;   (* [None]: fromBinder gives nullptr *)
  getService : option hidl_service        (* [None]: nullptr *)
}.

(** The function-local statics of the two locators ([None]: not initialised
    yet) and the trace. *)
Record state : Type := mkState {
  st_declared : option bool;
  st_memtrack_binder : option (option aidl_service);
  st_module : option (option hidl_service);
  st_logged : bool;
  trace : list event
}.

Definition initial_state : state := mkState None None None false [].

(** A state monad over [state]. *)
Definition M (A : Type) : Type := state → A * state.

#[global] Instance M_ret : MRet M := λ A a s, (a, s).
#[global] Instance M_bind : MBind M :=
  λ A B k m s, let '(a, s') := m s in k a s'.

Definition emit (e : event) : M unit :=
  λ s, (tt, mkState (st_declared s) (st_memtrack_binder s) (st_module s)
              (st_logged s) (trace s ++ [e])).

Definition get_state : M state := λ s, (s, s).

Definition set_declared (b : bool) : M unit :=
  λ s, (tt, mkState (Some b) (st_memtrack_binder s) (st_module s)
              (st_logged s) (trace s)).
Definition set_memtrack_binder (b : option aidl_service) : M unit :=
  λ s, (tt, mkState (st_declared s) (Some b) (st_module s)
              (st_logged s) (trace s)).
Definition set_module (m : option hidl_service) : M unit :=
  λ s, (tt, mkState (st_declared s) (st_memtrack_binder s) (Some m)
              (st_logged s) (trace s)).
Definition set_logged (b : bool) : M unit :=
  λ s, (tt, mkState (st_declared s) (st_memtrack_binder s) (st_module s)
              b (trace s)).

(** ** Service locator *)

Section Locator.
Variable pf : platform.

(** [get_hidl_instance]. *)
Definition get_hidl_instance : M (option hidl_service) :=
  s ← get_state;
  module ← match st_module s with
           | Some m => mret m
           | None =>
               emit EvGetService;;
               set_module (getService pf);;
               mret (getService pf)
           end;
  s ← get_state;
  (if bool_decide (module = None :> option hidl_service) && negb (st_logged s)
   then set_logged true;; emit (EvLogE "Couldn't load memtrack module")
   else mret ());;
  mret module.

(** [get_aidl_instance]. *)
Definition get_aidl_instance : M (option aidl_service) :=
  s ← get_state;
  declared ← match st_declared s with
             | Some d => mret d
             | None =>
                 emit EvIsDeclared;;
                 set_declared (isDeclared pf);;
                 mret (isDeclared pf)
             end;
  if negb declared then mret None
  else
    s ← get_state;
    match st_memtrack_binder s with
    | Some b => mret b
    | None =>
        emit EvWaitForService;;
        set_memtrack_binder (waitForService pf);;
        mret (waitForService pf)
    end.
End Locator.

(** ** Record fetcher *)

(** [std::vector<MemtrackRecord>::resize(n)]: the vector is cut to [n]
    elements or filled up with value-initialised records. *)
Definition vector_resize (n : nat) (v : list MemtrackRecord) : list MemtrackRecord :=
  take n v ++ replicate (n - length v) (mkRecord 0 0).

Section Copy.
(** The copying loop is the same text on both paths; what differs is the type
    of the record read, hence the conversions done by the two assignments. *)
Context {R : Type} (size_of flags_of : R → Z).

(** One round of the loop body at index [i]:
    [t->records[i].sizeInBytes = ...; t->records[i].flags = ...]. *)
Definition copy_record (i : nat) (r : R) (dst : list MemtrackRecord)
  : list MemtrackRecord :=
  alter (λ d, mkRecord (sizeInBytes d) (flags_of r)) i
    (alter (λ d, mkRecord (size_of r) (flags d)) i dst).

(** [for (size_t i = ...; i < records.size(); i++)], with [src] the records
    from index [i] on. *)
Fixpoint copy_records (i : nat) (src : list R) (dst : list MemtrackRecord)
  : list MemtrackRecord :=
  match src with
  | [] => dst
  | r :: src' => copy_records (S i) src' (copy_record i r dst)
  end.

(** The record the two assignments of the loop body leave at an index. *)
Definition copied (r : R) : MemtrackRecord := mkRecord (size_of r) (flags_of r).

(** [t->records.resize(records.size())] followed by the loop. *)
Definition store_records (src : list R) (t : memtrack_proc_type)
  : memtrack_proc_type :=
  set_records
    (copy_records 0 src (vector_resize (length src) (records t))) t.
End Copy.

(** Assigning a long to a uint64_t field and an int to a uint32_t field. *)
Definition aidl_size (r : V_aidl.MemtrackRecord) : Z :=
  to_uint64 (V_aidl.sizeInBytes r).
Definition aidl_flags (r : V_aidl.MemtrackRecord) : Z :=
  to_uint32 (V_aidl.flags r).

(** The body of the lambda handed to the legacy [getMemory]; [err] is captured
    by reference and is 0 when the lambda runs. *)
Definition getMemory_callback (status : MemtrackStatus)
    (recs : list MemtrackRecord) (err : Z) (t : memtrack_proc_type)
  : Z * memtrack_proc_type :=
  let '(err, t) :=
    if bool_decide (status ≠ SUCCESS)
    then (-1, set_records (vector_resize 0 (records t)) t)
    else (err, t) in
  (err, store_records sizeInBytes flags recs t).

Section Fetcher.
Variable pf : platform.

Definition aidl_getMemory (svc : aidl_service) (pid ty : Z) : M aidl_reply :=
  s ← get_state;
  emit (EvAidlGetMemory pid ty);;
  mret (svc (trace s) pid ty).

Definition hidl_getMemory (svc : hidl_service) (pid ty : Z) : M hidl_reply :=
  s ← get_state;
  emit (EvHidlGetMemory pid ty);;
  mret (svc (trace s) pid ty).

(** [memtrack_proc_get_type]: the return value and the entry [*t] as the call
    leaves it. *)
Definition memtrack_proc_get_type (t : memtrack_proc_type) (pid ty : Z)
  : M (Z * memtrack_proc_type) :=
  let err := 0 in
  service ← get_aidl_instance pf;
  match service with
  | Some service =>
      reply ← aidl_getMemory service pid (to_int (to_uint32 ty));
      if negb (status_isOk reply) then mret (-1, t)
      else mret (err, store_records aidl_size aidl_flags (aidl_records reply) t)
  | None =>
      memtrack ← get_hidl_instance pf;
      match memtrack with
      | None => mret (-1, t)
      | Some memtrack =>
          reply ← hidl_getMemory memtrack pid ty;
          let '(err, t) :=
            match callback_args reply with
            | Some (status, recs) => getMemory_callback status recs err t
            | None => (err, t)
            end in
          mret (if ret_isOk reply then err else -1, t)
      end
  end.

(** ** Process snapshot *)

Definition memtrack_proc_sanity_check (p : memtrack_proc) : Z := 0.

(** The loop of [memtrack_proc_get] from index [i] on, with [n] rounds left
    ([n = NUM_TYPES - i]); [(MemtrackType)i] is the number [i] itself. *)
Fixpoint memtrack_proc_get_loop (n i : nat) (p : memtrack_proc) (pid : Z)
  : M (Z * memtrack_proc) :=
  match n with
  | O => mret (memtrack_proc_sanity_check p, p)
  | S n' =>
      '(ret, t) ← memtrack_proc_get_type (types p !!! i) pid (Z.of_nat i);
      let p := set_types (<[i := t]> (types p)) p in
      if bool_decide (ret ≠ 0) then mret (ret, p)
      else memtrack_proc_get_loop n' (S i) p pid
  end.

(** [memtrack_proc_get]; [None] is the null pointer.  The result is the
    return value together with the snapshot as the call leaves it. *)
Definition memtrack_proc_get (p : option memtrack_proc) (pid : Z)
  : M (Z * option memtrack_proc) :=
  match p with
  | None => mret (- EINVAL, None)
  | Some p =>
      let p := set_pid pid p in
      '(ret, p) ← memtrack_proc_get_loop (Z.to_nat NUM_TYPES) 0 p pid;
      mret (ret, Some p)
  end.
End Fetcher.

(** ** Build-time assertions *)

Section StaticAsserts.
(** The numberings of the two interface generations, as the headers the file
    is compiled against declare them. *)
Variables hidl_type aidl_type : MemtrackType → Z.
Variables hidl_flag aidl_flag : MemtrackFlag → Z.

Definition static_assert_flag (f : MemtrackFlag) : bool :=
  to_uint32 (hidl_flag f) =? to_uint32 (aidl_flag f).

Definition static_assert_type (t : MemtrackType) : bool :=
  to_uint32 (hidl_type t) =? to_uint32 (aidl_type t).

(** The fourteen [static_assert]s at the head of the file, in their order;
    the file compiles only if all of them hold. *)
Definition static_asserts : bool :=
  static_assert_flag SMAPS_ACCOUNTED
  && static_assert_flag SMAPS_UNACCOUNTED
  && static_assert_flag SHARED
  && static_assert_flag SHARED_PSS
  && static_assert_flag PRIVATE
  && static_assert_flag SYSTEM
  && static_assert_flag DEDICATED
  && static_assert_flag NONSECURE
  && static_assert_flag SECURE
  && static_assert_type OTHER
  && static_assert_type GL
  && static_assert_type GRAPHICS
  && static_assert_type MULTIMEDIA
  && static_assert_type CAMERA.
End StaticAsserts.

(** A mask built by or-ing the uint32_t values of a set of flags. *)
Definition mask_of (flag_val : MemtrackFlag → Z) (fs : list MemtrackFlag) : Z :=
  foldr (λ f m, Z.lor (to_uint32 (flag_val f)) m) 0 fs.

(** ** Specification-side notions *)

(** The records stored under a type ([[]] where there is no such entry). *)
Definition records_of (p : memtrack_proc) (t : MemtrackType) : list MemtrackRecord :=
  from_option records [] (types p !! Z.to_nat (MemtrackType_val t)).

(** A record carries every bit of the mask. *)
Definition has_all_flags (mask : Z) (r : MemtrackRecord) : Prop :=
  Z.land (flags r) mask = mask.

#[global] Instance has_all_flags_dec mask r : Decision (has_all_flags mask r).
Proof. unfold has_all_flags. apply _. Defined.

(** The records a sum ranges over: those of the given types, type by type and
    in stored order, that carry the whole mask. *)
Definition selected_records (p : memtrack_proc) (ts : list MemtrackType)
    (mask : Z) : list MemtrackRecord :=
  ts ≫= (λ t, filter (has_all_flags mask) (records_of p t)).

Definition total_size (rs : list MemtrackRecord) : Z :=
  foldr (λ r acc, sizeInBytes r + acc) 0 rs.

Definition sum_Z (l : list Z) : Z := foldr Z.add 0 l.

(** A value that the [w]-bit signed type holds. *)
Definition fits_signed (w z : Z) : Prop := - 2 ^ (w - 1) ≤ z < 2 ^ (w - 1).

(** The [getMemory] calls in a trace, as (pid, type) pairs. *)
Definition provider_calls (tr : list event) : list (Z * Z) :=
  omap (λ e, match e with
             | EvAidlGetMemory pid ty | EvHidlGetMemory pid ty => Some (pid, ty)
             | _ => None
             end) tr.

(** The statics hold nothing but what the platform answered. *)
Definition statics_agree (pf : platform) (s : state) : Prop :=
  (∀ d, st_declared s = Some d → d = isDeclared pf)
  ∧ (∀ b, st_memtrack_binder s = Some b → b = waitForService pf)
  ∧ (∀ m, st_module s = Some m → m = getService pf).

(** What the locators resolve to on a platform. *)
Definition resolved_aidl (pf : platform) : option aidl_service :=
  if isDeclared pf then waitForService pf else None.
Definition resolved_hidl (pf : platform) : option hidl_service := getService pf.

(** The first [k] rounds of the population loop run to their end whatever they
    return: the return values in order, the snapshot and the state reached. *)
Fixpoint fetch_prefix (pf : platform) (k : nat) (p : memtrack_proc) (pid : Z)
    (s : state) : list Z * memtrack_proc * state :=
  match k with
  | O => ([], p, s)
  | S k' =>
      let '(rs, p', s') := fetch_prefix pf k' p pid s in
      let '((r, t), s'') :=
        memtrack_proc_get_type pf (types p' !!! k') pid (Z.of_nat k') s' in
      (rs ++ [r], set_types (<[k' := t]> (types p')) p', s'')
  end.

(** The state after one more event. *)
Definition after (e : event) (s : state) : state := (emit e s).2.


(** A record of the modern provider and the record stored for it hold the same
    size and the same flags: bit for bit in the 64 and 32 bits of the fields,
    and as numbers where the signed fields of the modern record are not
    negative. *)
Definition same_record (raw : V_aidl.MemtrackRecord) (st : MemtrackRecord) : Prop :=
  (∀ n, 0 ≤ n < 64 →
     Z.testbit (sizeInBytes st) n = Z.testbit (V_aidl.sizeInBytes raw) n)
  ∧ (∀ n, 0 ≤ n < 32 →
     Z.testbit (flags st) n = Z.testbit (V_aidl.flags raw) n)
  ∧ (0 ≤ V_aidl.sizeInBytes raw < 2 ^ 63 →
     sizeInBytes st = V_aidl.sizeInBytes raw)
  ∧ (0 ≤ V_aidl.flags raw < 2 ^ 31 → flags st = V_aidl.flags raw).

(** The sum primitive applied to a set of types and a set of required flags. *)
Definition sum_over (ssize_bits : Z) (p : memtrack_proc)
    (ts : list MemtrackType) (fs : list MemtrackFlag) : option Z :=
  memtrack_proc_sum ssize_bits p (MemtrackType_val <$> ts)
    (mask_of MemtrackFlag_val fs).

(** The first scenario of the spec: GRAPHICS holds a record of 100 bytes that
    is SMAPS_ACCOUNTED and one of 50 bytes that is SHARED_PSS and
    SMAPS_UNACCOUNTED; OTHER, MULTIMEDIA and CAMERA hold one flagless record of
    10 bytes each. *)
Definition scenario : memtrack_proc :=
  mkProc 1234
    [ mkProcType 0 [mkRecord 10 0];
      mkProcType 0 [];
      mkProcType 0 [mkRecord 100 2; mkRecord 50 20];
      mkProcType 0 [mkRecord 10 0];
      mkProcType 0 [mkRecord 10 0] ].

(** ** Platforms to run the code on *)

(** A modern provider that knows two GRAPHICS records and nothing else. *)
Definition modern_service : aidl_service :=
  λ _ _ ty,
    mkAidlReply true
      (if ty =? 2 then [V_aidl.mkRecord 100 2; V_aidl.mkRecord 50 20] else []).

Definition modern_platform : platform :=
  mkPlatform true (Some modern_service) None.

(** A legacy provider that reports that it does not track memory, and hands a
    record to the callback all the same. *)
Definition failing_legacy_service : hidl_service :=
  λ _ _ _,
    mkHidlReply (Some (MEMORY_TRACKING_NOT_SUPPORTED, [mkRecord 100 2])) true.

Definition failing_legacy_platform : platform :=
  mkPlatform false None (Some failing_legacy_service).

(** No provider at all. *)
Definition bare_platform : platform := mkPlatform false None None.

(** A modern provider whose call for GRAPHICS fails. *)
Definition graphics_failing_service : aidl_service :=
  λ _ _ ty, mkAidlReply (negb (ty =? 2)) [].

Definition graphics_failing_platform : platform :=
  mkPlatform true (Some graphics_failing_service) None.

(** ** Device info query *)

(** The answer to [getGpuDeviceInfo]: the binder status and the vector behind
    the out-parameter as the call leaves it.  [V_aidl::DeviceInfo] is opaque to
    the file. *)
Record gpu_reply (DeviceInfo : Type) : Type := mkGpuReply {
  gpu_isOk : bool;
  gpu_device_info : list DeviceInfo
}.
Arguments mkGpuReply {DeviceInfo} _ _.
Arguments gpu_isOk {DeviceInfo} _.
Arguments gpu_device_info {DeviceInfo} _.

(** The state together with the [getGpuDeviceInfo] calls made so far, each
    with the trace it was made after. *)
Record gpu_state : Type := mkGpuState {
  gpu_base : state;
  gpu_calls : list (list event)
}.

(** The method of the modern service object: it answers knowing what happened
    before and the vector it is handed. *)
Definition gpu_method (DeviceInfo : Type) : Type :=
  aidl_service → gpu_state → list DeviceInfo → gpu_reply DeviceInfo.

(** [memtrack_gpu_device_info]: the return value and the vector [*device_info]
    as the call leaves it. *)
Definition memtrack_gpu_device_info {DeviceInfo : Type} (pf : platform)
    (getGpuDeviceInfo : gpu_method DeviceInfo) (device_info : list DeviceInfo)
    (g : gpu_state) : (bool * list DeviceInfo) * gpu_state :=
  let '(service, s) := get_aidl_instance pf (gpu_base g) in
  let g := mkGpuState s (gpu_calls g) in
  match service with
  | None => ((false, device_info), g)
  | Some service =>
      let status := getGpuDeviceInfo service g device_info in
      ((gpu_isOk status, gpu_device_info status),
       mkGpuState s (gpu_calls g ++ [trace s]))
  end.

(** ** Notions for the further properties *)

(** How often a kind of event occurs in a trace. *)
Fixpoint count_events (P : event → bool) (tr : list event) : nat :=
  match tr with
  | [] => 0
  | e :: tr' => (if P e then 1 else 0) + count_events P tr'
  end.

Definition is_EvIsDeclared (e : event) : bool :=
  match e with EvIsDeclared => true | _ => false end.
Definition is_EvWaitForService (e : event) : bool :=
  match e with EvWaitForService => true | _ => false end.
Definition is_EvGetService (e : event) : bool :=
  match e with EvGetService => true | _ => false end.
Definition is_EvLogE (e : event) : bool :=
  match e with EvLogE _ => true | _ => false end.

(** Anything that concerns the legacy provider. *)
Definition is_legacy_event (e : event) : bool :=
  match e with
  | EvGetService | EvLogE _ | EvHidlGetMemory _ _ => true
  | _ => false
  end.

(** Each lookup and the diagnostic have happened at most once, and not at all
    while the static that remembers them is not set. *)
Definition looked_up_once (s : state) : Prop :=
  (count_events is_EvIsDeclared (trace s)
   ≤ if st_declared s is Some _ then 1 else 0)%nat
  ∧ (count_events is_EvWaitForService (trace s)
     ≤ if st_memtrack_binder s is Some _ then 1 else 0)%nat
  ∧ (count_events is_EvGetService (trace s)
     ≤ if st_module s is Some _ then 1 else 0)%nat
  ∧ (count_events is_EvLogE (trace s) ≤ if st_logged s then 1 else 0)%nat.

(** The legacy side is as it was: its statics, and nothing of it among the
    events added. *)
Definition legacy_untouched (s s' : state) : Prop :=
  st_module s' = st_module s
  ∧ st_logged s' = st_logged s
  ∧ ∃ new, trace s' = trace s ++ new
      ∧ Forall (λ e, is_legacy_event e = false) new.

(** A provider whose answers do not depend on what happened before. *)
Definition stateless (svc : aidl_service) : Prop :=
  ∀ tr tr' q ty, svc tr q ty = svc tr' q ty.

(** The records stored for what the modern provider answers for a type. *)
Definition stored_reply (svc : aidl_service) (q : Z) (t : MemtrackType)
  : list MemtrackRecord :=
  copied aidl_size aidl_flags <$> aidl_records (svc [] q (MemtrackType_val t)).

(** A legacy provider next to which no modern one is declared, and that
    succeeds with one record for every type. *)
Definition legacy_service : hidl_service :=
  λ _ _ _, mkHidlReply (Some (SUCCESS, [mkRecord 8 4])) true.

Definition legacy_platform : platform :=
  mkPlatform false None (Some legacy_service).

(** A platform with both providers, the modern one failing every call. *)
Definition failing_modern_service : aidl_service :=
  λ _ _ _, mkAidlReply false [V_aidl.mkRecord 1 0].

Definition both_platform : platform :=
  mkPlatform true (Some failing_modern_service) (Some legacy_service).

(** ** Machine arithmetic *)

Lemma to_signed_fits w z : 1 ≤ w → fits_signed w z → to_signed w z = z.
Proof.
  intros Hw [Hlo Hhi]. unfold to_signed.
  assert (2 ^ w = 2 * 2 ^ (w - 1)) as Hpow.
  { rewrite <- Z.pow_succ_r by lia. f_equal. lia. }
  rewrite Z.mod_small by lia. lia.
Qed.

Lemma to_signed_range w z : 1 ≤ w → fits_signed w (to_signed w z).
Proof.
  intros Hw. unfold fits_signed, to_signed.
  assert (2 ^ w = 2 * 2 ^ (w - 1)) as Hpow.
  { rewrite <- Z.pow_succ_r by lia. f_equal. lia. }
  assert (0 < 2 ^ (w - 1)) by (apply Z.pow_pos_nonneg; lia).
  pose proof (Z.mod_pos_bound (z + 2 ^ (w - 1)) (2 ^ w)). lia.
Qed.

Lemma to_signed_congr w a b :
  a mod 2 ^ w = b mod 2 ^ w → to_signed w a = to_signed w b.
Proof.
  intros Hab. unfold to_signed. f_equal.
  by rewrite (Zplus_mod a), (Zplus_mod b), Hab.
Qed.

Lemma to_signed_idemp w z : 1 ≤ w → to_signed w (to_signed w z) = to_signed w z.
Proof. intros Hw. apply to_signed_fits, to_signed_range; done. Qed.

Lemma to_signed_mod w z : 1 ≤ w → to_signed w z mod 2 ^ w = z mod 2 ^ w.
Proof.
  intros Hw. unfold to_signed.
  assert (0 < 2 ^ w) by (apply Z.pow_pos_nonneg; lia).
  rewrite Zminus_mod, Zmod_mod, <- Zminus_mod. f_equal. lia.
Qed.

Lemma to_unsigned_mod_le w v z :
  0 ≤ w ≤ v → to_unsigned v z mod 2 ^ w = z mod 2 ^ w.
Proof.
  intros Hw. unfold to_unsigned. apply Z.mod_mod_divide.
  exists (2 ^ (v - w)). rewrite <- Z.pow_add_r by lia. f_equal. lia.
Qed.

Section AggregatorArith.
Variable ssize_bits : Z.
Hypothesis ssize_bits_range : 1 ≤ ssize_bits ≤ 64.

(** The addition of the loop is addition modulo the width of ssize_t. *)
Lemma ssize_add_uint64_spec sum size :
  ssize_add_uint64 ssize_bits sum size = to_ssize ssize_bits (sum + size).
Proof.
  unfold ssize_add_uint64, to_ssize, to_uint64. apply to_signed_congr.
  rewrite to_unsigned_mod_le by lia.
  rewrite (Zplus_mod (to_unsigned 64 sum)), to_unsigned_mod_le by lia.
  by rewrite <- Zplus_mod.
Qed.

Lemma to_ssize_add_l a b :
  to_ssize ssize_bits (to_ssize ssize_bits a + b) = to_ssize ssize_bits (a + b).
Proof.
  unfold to_ssize. apply to_signed_congr.
  rewrite Zplus_mod, to_signed_mod by lia. by rewrite <- Zplus_mod.
Qed.

Lemma to_ssize_add_r a b :
  to_ssize ssize_bits (a + to_ssize ssize_bits b) = to_ssize ssize_bits (a + b).
Proof. rewrite Z.add_comm, to_ssize_add_l. f_equal. lia. Qed.

Lemma to_ssize_0 : to_ssize ssize_bits 0 = 0.
Proof.
  apply to_signed_fits; [lia|]. unfold fits_signed.
  assert (0 < 2 ^ (ssize_bits - 1)) by (apply Z.pow_pos_nonneg; lia). lia.
Qed.

(** The inner loop adds the sizes of the matching records to what it is
    given, modulo the width. *)
Lemma sum_records_spec mask recs sum :
  to_ssize ssize_bits (sum_records ssize_bits mask recs sum)
  = to_ssize ssize_bits (sum + total_size (filter (has_all_flags mask) recs)).
Proof.
  revert sum. induction recs as [|r recs IH]; intros sum; simpl.
  { f_equal. lia. }
  rewrite IH. unfold flags_match. rewrite filter_cons.
  destruct (Z.eqb_spec (Z.land (flags r) mask) mask) as [Heq|Hne].
  - rewrite decide_True by done. simpl.
    rewrite ssize_add_uint64_spec, to_ssize_add_l. f_equal. lia.
  - by rewrite decide_False by done.
Qed.

(** It keeps its running value within ssize_t. *)
Lemma sum_records_fixed mask recs sum :
  to_ssize ssize_bits sum = sum →
  to_ssize ssize_bits (sum_records ssize_bits mask recs sum)
  = sum_records ssize_bits mask recs sum.
Proof.
  revert sum. induction recs as [|r recs IH]; intros sum Hsum; simpl; [done|].
  apply IH. destruct (flags_match mask r); [|done].
  unfold ssize_add_uint64, to_ssize. apply to_signed_idemp. lia.
Qed.
End AggregatorArith.

(** ** The aggregator over a well-formed snapshot *)

Lemma total_size_app rs1 rs2 :
  total_size (rs1 ++ rs2) = total_size rs1 + total_size rs2.
Proof. induction rs1 as [|r rs1 IH]; simpl; lia. Qed.

Lemma total_size_Permutation rs1 rs2 :
  rs1 ≡ₚ rs2 → total_size rs1 = total_size rs2.
Proof. induction 1; simpl; lia. Qed.

(** In a well-formed snapshot every enumerator indexes an entry of the
    array. *)
Lemma types_at_enumerator p t :
  proc_wf p →
  ∃ ty, types_at p (MemtrackType_val t) = Some ty ∧ records ty = records_of p t.
Proof.
  unfold proc_wf, types_at, records_of. intros Hwf.
  destruct (lookup_lt_is_Some_2 (types p) (Z.to_nat (MemtrackType_val t)))
    as [ty Hty].
  { rewrite Hwf. destruct t; vm_compute; lia. }
  exists ty. rewrite Hty. split; [|done].
  destruct t; exact Hty.
Qed.

Section AggregatorSpec.
Variable ssize_bits : Z.
Hypothesis ssize_bits_range : 1 ≤ ssize_bits ≤ 64.

Lemma sum_types_spec p (ts : list MemtrackType) mask sum :
  proc_wf p →
  to_ssize ssize_bits sum = sum →
  sum_types ssize_bits p (MemtrackType_val <$> ts) mask sum
  = Some (to_ssize ssize_bits (sum + total_size (selected_records p ts mask))).
Proof.
  intros Hwf. revert sum. induction ts as [|t ts IH]; intros sum Hsum; simpl.
  { rewrite Z.add_0_r. by rewrite Hsum. }
  destruct (types_at_enumerator p t Hwf) as (ty & -> & Hrecs).
  rewrite IH by (by apply sum_records_fixed).
  f_equal. fold (selected_records p ts mask). rewrite total_size_app.
  rewrite <- (to_ssize_add_l _ ssize_bits_range (sum_records _ _ _ _)).
  rewrite sum_records_spec, to_ssize_add_l by done.
  rewrite Hrecs. f_equal. lia.
Qed.

Lemma memtrack_proc_sum_total p (ts : list MemtrackType) mask :
  proc_wf p →
  memtrack_proc_sum ssize_bits p (MemtrackType_val <$> ts) mask
  = Some (to_ssize ssize_bits (total_size (selected_records p ts mask))).
Proof.
  intros Hwf. unfold memtrack_proc_sum.
  rewrite sum_types_spec by (done || by apply to_ssize_0). done.
Qed.
End AggregatorSpec.

Lemma selected_records_Permutation p ts1 ts2 mask :
  ts1 ≡ₚ ts2 → selected_records p ts1 mask ≡ₚ selected_records p ts2 mask.
Proof. intros Hp. unfold selected_records. by rewrite Hp. Qed.

Lemma has_all_flags_0 r : has_all_flags 0 r.
Proof. unfold has_all_flags. apply Z.land_0_r. Qed.

Lemma filter_all {A} (P : A → Prop) `{∀ x, Decision (P x)} (l : list A) :
  (∀ x, P x) → filter P l = l.
Proof.
  intros HP. induction l as [|x l IH]; [done|].
  rewrite filter_cons, decide_True by done. by rewrite IH.
Qed.

Lemma selected_records_0 p ts : selected_records p ts 0 = ts ≫= records_of p.
Proof.
  unfold selected_records. induction ts as [|t ts IH]; [done|].
  rewrite !bind_cons, IH. f_equal. apply filter_all, has_all_flags_0.
Qed.

Lemma elem_of_selected_records p ts mask r :
  r ∈ selected_records p ts mask
  ↔ ∃ t, t ∈ ts ∧ r ∈ records_of p t ∧ Z.land (flags r) mask = mask.
Proof.
  unfold selected_records. rewrite list_elem_of_bind. split.
  - intros (t & Hr & Ht). apply list_elem_of_filter in Hr as [Hm Hr]. by exists t.
  - intros (t & Ht & Hr & Hm). exists t. split; [|done].
    by apply list_elem_of_filter.
Qed.

Lemma total_size_selected_parts p ts mask :
  total_size (selected_records p ts mask)
  = sum_Z ((λ t, total_size (selected_records p [t] mask)) <$> ts).
Proof.
  unfold selected_records. induction ts as [|t ts IH]; [done|].
  rewrite bind_cons, total_size_app, fmap_cons. simpl. rewrite IH.
  by rewrite app_nil_r.
Qed.

(** ** Theorems on the aggregator *)

(** C1. Over a populated snapshot, [memtrack_proc_sum] returns the sum of
    [sizeInBytes] over exactly the records stored under the given types whose
    flags contain the whole mask, [(flags & mask) == mask]: the result is that
    sum brought into ssize_t, and the sum itself whenever ssize_t holds it.  A
    record is counted if and only if it is stored under one of the types and
    carries every bit of the mask, so one that only overlaps the mask is left
    out; with the zero mask the records counted are all those of the selected
    types, each once. *)
Theorem memtrack_proc_sum_selects_by_mask
    ssize_bits p (ts : list MemtrackType) mask :
  1 ≤ ssize_bits ≤ 64 →
  proc_wf p →
  memtrack_proc_sum ssize_bits p (MemtrackType_val <$> ts) mask
    = Some (to_ssize ssize_bits (total_size (selected_records p ts mask)))
  ∧ (fits_signed ssize_bits (total_size (selected_records p ts mask)) →
     memtrack_proc_sum ssize_bits p (MemtrackType_val <$> ts) mask
     = Some (total_size (selected_records p ts mask)))
  ∧ (∀ r, r ∈ selected_records p ts mask
          ↔ ∃ t, t ∈ ts ∧ r ∈ records_of p t ∧ Z.land (flags r) mask = mask)
  ∧ selected_records p ts 0 = ts ≫= records_of p.
Proof.
  intros Hw Hwf. split_and!.
  - by apply memtrack_proc_sum_total.
  - intros Hfits. rewrite memtrack_proc_sum_total by done.
    unfold to_ssize. rewrite to_signed_fits by (done || lia). done.
  - intros r. apply elem_of_selected_records.
  - apply selected_records_0.
Qed.

Lemma memtrack_proc_sum_selects_by_mask_witness :
  (1 ≤ 64 ≤ 64 ∧ proc_wf scenario)
  ∧ memtrack_proc_sum 64 scenario (MemtrackType_val <$> [GRAPHICS]) 4
    = Some (to_ssize 64 (total_size (selected_records scenario [GRAPHICS] 4))).
Proof.
  assert (1 ≤ 64 ≤ 64) as Hw by lia.
  assert (proc_wf scenario) as Hwf by reflexivity.
  split; [done|].
  exact (proj1 (memtrack_proc_sum_selects_by_mask 64 scenario [GRAPHICS] 4 Hw Hwf)).
Defined.

(** The scenarios of the spec, run on the code. *)
Example scenario_graphics :
  memtrack_proc_graphics_total 64 scenario = Some 150
  ∧ memtrack_proc_graphics_pss 64 scenario = Some 50.
Proof. split; reflexivity. Qed.

Example scenario_other :
  memtrack_proc_other_total 64 scenario = Some 30
  ∧ memtrack_proc_other_pss 64 scenario = Some 0.
Proof. split; reflexivity. Qed.

(** A record that shares a bit with the mask without carrying all of it is not
    counted: mask 20 (SHARED_PSS and SMAPS_UNACCOUNTED) against flags 4. *)
Example overlap_is_not_containment :
  memtrack_proc_sum 64 (mkProc 1 [mkProcType 0 [mkRecord 7 4]]) [0] 20 = Some 0.
Proof. reflexivity. Qed.

Lemma memtrack_proc_sum_Permutation ssize_bits p (ts1 ts2 : list MemtrackType) mask :
  1 ≤ ssize_bits ≤ 64 →
  proc_wf p →
  ts1 ≡ₚ ts2 →
  memtrack_proc_sum ssize_bits p (MemtrackType_val <$> ts1) mask
  = memtrack_proc_sum ssize_bits p (MemtrackType_val <$> ts2) mask.
Proof.
  intros Hw Hwf Hp. rewrite !memtrack_proc_sum_total by done.
  do 2 f_equal. by apply total_size_Permutation, selected_records_Permutation.
Qed.

(** C2. Over a populated snapshot each of the six category queries is the sum
    primitive applied to its fixed set of types and its mask, whatever the
    order the set is listed in: graphics and gl over {GRAPHICS} and {GL}, other
    over {MULTIMEDIA, CAMERA, OTHER}; the total queries with the empty mask and
    the pss queries with the mask {SMAPS_UNACCOUNTED}. *)
Theorem category_queries_are_sums ssize_bits p :
  1 ≤ ssize_bits ≤ 64 →
  proc_wf p →
  (∀ ts, ts ≡ₚ [GRAPHICS] →
     memtrack_proc_graphics_total ssize_bits p = sum_over ssize_bits p ts []
     ∧ memtrack_proc_graphics_pss ssize_bits p
       = sum_over ssize_bits p ts [SMAPS_UNACCOUNTED])
  ∧ (∀ ts, ts ≡ₚ [GL] →
     memtrack_proc_gl_total ssize_bits p = sum_over ssize_bits p ts []
     ∧ memtrack_proc_gl_pss ssize_bits p
       = sum_over ssize_bits p ts [SMAPS_UNACCOUNTED])
  ∧ (∀ ts, ts ≡ₚ [MULTIMEDIA; CAMERA; OTHER] →
     memtrack_proc_other_total ssize_bits p = sum_over ssize_bits p ts []
     ∧ memtrack_proc_other_pss ssize_bits p
       = sum_over ssize_bits p ts [SMAPS_UNACCOUNTED]).
Proof.
  intros Hw Hwf. unfold sum_over.
  split_and!; intros ts Hts;
    rewrite !(memtrack_proc_sum_Permutation ssize_bits p ts _ _ Hw Hwf Hts);
    split; reflexivity.
Qed.

Lemma category_queries_are_sums_witness :
  (1 ≤ 64 ≤ 64 ∧ proc_wf scenario)
  ∧ memtrack_proc_other_total 64 scenario
    = sum_over 64 scenario [OTHER; CAMERA; MULTIMEDIA] []
  ∧ memtrack_proc_other_pss 64 scenario
    = sum_over 64 scenario [OTHER; CAMERA; MULTIMEDIA] [SMAPS_UNACCOUNTED].
Proof.
  assert (1 ≤ 64 ≤ 64) as Hw by lia.
  assert (proc_wf scenario) as Hwf by reflexivity.
  split; [done|].
  apply (category_queries_are_sums 64 scenario Hw Hwf).
  (* the listing [OTHER; CAMERA; MULTIMEDIA] reverses the one in the code *)
  exact (reverse_Permutation [MULTIMEDIA; CAMERA; OTHER]).
Defined.

Lemma to_ssize_sum_Z ssize_bits (l : list Z) :
  1 ≤ ssize_bits ≤ 64 →
  to_ssize ssize_bits (sum_Z (to_ssize ssize_bits <$> l))
  = to_ssize ssize_bits (sum_Z l).
Proof.
  intros Hw. induction l as [|x l IH]; [done|].
  rewrite fmap_cons. simpl.
  rewrite to_ssize_add_l, <- to_ssize_add_r, IH, to_ssize_add_r by done. done.
Qed.

(** C7. Over a populated snapshot, with one mask, the sum over a set of types
    is the sum of the sums over each of its types alone: every one of these
    queries returns, and the result for the set is the total of the single
    results brought into ssize_t, which is that total itself whenever ssize_t
    holds it. *)
Theorem memtrack_proc_sum_additive ssize_bits p (ts : list MemtrackType) mask :
  1 ≤ ssize_bits ≤ 64 →
  proc_wf p →
  ∃ total parts,
    memtrack_proc_sum ssize_bits p (MemtrackType_val <$> ts) mask = Some total
    ∧ Forall2
        (λ t v, memtrack_proc_sum ssize_bits p [MemtrackType_val t] mask = Some v)
        ts parts
    ∧ total = to_ssize ssize_bits (sum_Z parts)
    ∧ (fits_signed ssize_bits (sum_Z parts) → total = sum_Z parts).
Proof.
  intros Hw Hwf.
  set (part t := to_ssize ssize_bits (total_size (selected_records p [t] mask))).
  assert (to_ssize ssize_bits (total_size (selected_records p ts mask))
          = to_ssize ssize_bits (sum_Z (part <$> ts))) as Htotal.
  { rewrite total_size_selected_parts, <- to_ssize_sum_Z by done.
    by rewrite <- list_fmap_compose. }
  exists (to_ssize ssize_bits (total_size (selected_records p ts mask))),
         (part <$> ts).
  split_and!.
  - by apply memtrack_proc_sum_total.
  - apply Forall2_fmap_r, Forall_Forall2_diag, Forall_forall. intros t _.
    exact (memtrack_proc_sum_total ssize_bits Hw p [t] mask Hwf).
  - exact Htotal.
  - intros Hfits. rewrite Htotal. unfold to_ssize.
    apply to_signed_fits; [lia|done].
Qed.

Lemma memtrack_proc_sum_additive_witness :
  (1 ≤ 64 ≤ 64 ∧ proc_wf scenario)
  ∧ ∃ total parts,
      memtrack_proc_sum 64 scenario
        (MemtrackType_val <$> [MULTIMEDIA; CAMERA; GRAPHICS]) 0 = Some total
      ∧ Forall2
          (λ t v, memtrack_proc_sum 64 scenario [MemtrackType_val t] 0 = Some v)
          [MULTIMEDIA; CAMERA; GRAPHICS] parts
      ∧ total = to_ssize 64 (sum_Z parts)
      ∧ (fits_signed 64 (sum_Z parts) → total = sum_Z parts).
Proof.
  assert (1 ≤ 64 ≤ 64) as Hw by lia.
  assert (proc_wf scenario) as Hwf by reflexivity.
  split; [done|].
  exact (memtrack_proc_sum_additive 64 scenario [MULTIMEDIA; CAMERA; GRAPHICS] 0
           Hw Hwf).
Defined.

(** C10. In the snapshot [memtrack_proc_new] returns, before any population,
    the array has its [NUM_TYPES] entries, the record list of every one is
    empty, and each of the six category queries returns 0. *)
Theorem fresh_snapshot_sums_to_zero ssize_bits :
  proc_wf memtrack_proc_new
  ∧ Forall (λ t, records t = []) (types memtrack_proc_new)
  ∧ memtrack_proc_graphics_total ssize_bits memtrack_proc_new = Some 0
  ∧ memtrack_proc_graphics_pss ssize_bits memtrack_proc_new = Some 0
  ∧ memtrack_proc_gl_total ssize_bits memtrack_proc_new = Some 0
  ∧ memtrack_proc_gl_pss ssize_bits memtrack_proc_new = Some 0
  ∧ memtrack_proc_other_total ssize_bits memtrack_proc_new = Some 0
  ∧ memtrack_proc_other_pss ssize_bits memtrack_proc_new = Some 0.
Proof.
  split_and!; try reflexivity.
  apply Forall_replicate. reflexivity.
Qed.

(** ** Running the monad *)

Lemma bind_run {A B} (m : M A) (k : A → M B) s a s1 :
  m s = (a, s1) → (m ≫= k) s = k a s1.
Proof. intros Hm. unfold mbind, M_bind. by rewrite Hm. Qed.

Lemma provider_calls_app tr1 tr2 :
  provider_calls (tr1 ++ tr2) = provider_calls tr1 ++ provider_calls tr2.
Proof. apply omap_app. Qed.

Ltac run_locator :=
  unfold mbind, M_bind, mret, M_ret, get_state, emit, set_declared,
    set_memtrack_binder, set_module, set_logged; simpl.

Ltac use_agreement :=
  match goal with
  | H : ∀ x, Some ?v = Some x → x = _ |- _ => specialize (H v eq_refl)
  | H : ∀ x, None = Some x → _ |- _ => clear H
  end.

Ltac solve_locator :=
  run_locator;
  eexists _, _; (split; [reflexivity|]); simpl;
  rewrite ?provider_calls_app, ?app_nil_r; (split; [reflexivity|]);
  intros (Hd & Hb & Hm); simpl in *; repeat use_agreement;
  split_and!; intros; simplify_eq/=; try congruence; eauto.

(** The locators talk to the service managers only, and on a state that agrees
    with the platform they return what the platform resolves to. *)
Lemma get_aidl_instance_run pf s :
  ∃ r s', get_aidl_instance pf s = (r, s')
    ∧ provider_calls (trace s') = provider_calls (trace s)
    ∧ (statics_agree pf s → r = resolved_aidl pf ∧ statics_agree pf s').
Proof.
  unfold get_aidl_instance, resolved_aidl, statics_agree.
  destruct s as [[[|]|] [b|] m lg tr], (isDeclared pf) eqn:Hdecl;
    solve_locator.
Qed.

Lemma get_hidl_instance_run pf s :
  ∃ r s', get_hidl_instance pf s = (r, s')
    ∧ provider_calls (trace s') = provider_calls (trace s)
    ∧ (statics_agree pf s → r = resolved_hidl pf ∧ statics_agree pf s').
Proof.
  unfold get_hidl_instance, resolved_hidl, statics_agree.
  destruct s as [d b [[m|]|] [|] tr], (getService pf) eqn:Hsvc;
    solve_locator.
Qed.

(** ** The copying loop *)

Lemma length_vector_resize n v : length (vector_resize n v) = n.
Proof.
  unfold vector_resize. rewrite length_app, length_take, length_replicate. lia.
Qed.

Section CopySpec.
Context {R : Type} (size_of flags_of : R → Z).

Lemma copy_record_at pre d rest r :
  copy_record size_of flags_of (length pre) r (pre ++ d :: rest)
  = (pre ++ [copied size_of flags_of r]) ++ rest.
Proof.
  unfold copy_record.
  rewrite !alter_app_r_alt, Nat.sub_diag by lia. simpl.
  by rewrite <- app_assoc.
Qed.

(** From index [length pre] on, the loop overwrites as many records as it
    reads and leaves the ones before alone. *)
Lemma copy_records_from src : ∀ pre rest,
  length rest = length src →
  copy_records size_of flags_of (length pre) src (pre ++ rest)
  = pre ++ (copied size_of flags_of <$> src).
Proof.
  induction src as [|r src IH]; intros pre rest Hlen.
  { destruct rest; [done|discriminate]. }
  destruct rest as [|d rest]; [discriminate|]. simpl.
  rewrite copy_record_at.
  replace (S (length pre)) with (length (pre ++ [copied size_of flags_of r]))
    by (rewrite length_app; simpl; lia).
  rewrite IH by (simpl in Hlen; lia). by rewrite <- app_assoc.
Qed.

(** Resizing and copying leaves exactly the records read, in their order. *)
Lemma records_store_records src t :
  records (store_records size_of flags_of src t) = copied size_of flags_of <$> src.
Proof.
  unfold store_records. simpl.
  apply (copy_records_from src []), length_vector_resize.
Qed.

End CopySpec.

(** On the legacy path the records read have the type of the records
    stored. *)
Lemma copied_same_type (recs : list MemtrackRecord) :
  copied sizeInBytes flags <$> recs = recs.
Proof.
  induction recs as [|[sz fl] recs IH]; [done|].
  rewrite fmap_cons, IH. done.
Qed.

Lemma store_records_same_type recs t :
  store_records sizeInBytes flags recs t = set_records recs t.
Proof.
  unfold store_records, set_records. f_equal.
  transitivity (copied sizeInBytes flags <$> recs); [|apply copied_same_type].
  apply (copy_records_from sizeInBytes flags recs []), length_vector_resize.
Qed.

(** What the callback of the legacy path leaves behind. *)
Lemma getMemory_callback_spec status recs t :
  getMemory_callback status recs 0 t
  = (if bool_decide (status = SUCCESS) then 0 else -1, set_records recs t).
Proof.
  unfold getMemory_callback.
  destruct status; simpl; by rewrite store_records_same_type.
Qed.

(** ** Conversions between the record types *)

Lemma to_unsigned_testbit w z n :
  0 ≤ n < w → Z.testbit (to_unsigned w z) n = Z.testbit z n.
Proof. intros Hn. unfold to_unsigned. apply Z.mod_pow2_bits_low. lia. Qed.

Lemma to_unsigned_small w z : 0 ≤ z < 2 ^ w → to_unsigned w z = z.
Proof. intros Hz. unfold to_unsigned. by apply Z.mod_small. Qed.

Lemma same_record_copied raw : same_record raw (copied aidl_size aidl_flags raw).
Proof.
  unfold same_record, copied, aidl_size, aidl_flags, to_uint64, to_uint32. simpl.
  split_and!.
  - intros n Hn. by apply to_unsigned_testbit.
  - intros n Hn. by apply to_unsigned_testbit.
  - intros Hsz. apply to_unsigned_small. lia.
  - intros Hfl. apply to_unsigned_small. lia.
Qed.

(** ** The three ways through [memtrack_proc_get_type] *)

Lemma provider_calls_after_aidl pid ty s :
  provider_calls (trace (after (EvAidlGetMemory pid ty) s))
  = provider_calls (trace s) ++ [(pid, ty)].
Proof. unfold after. simpl. by rewrite provider_calls_app. Qed.

Lemma provider_calls_after_hidl pid ty s :
  provider_calls (trace (after (EvHidlGetMemory pid ty) s))
  = provider_calls (trace s) ++ [(pid, ty)].
Proof. unfold after. simpl. by rewrite provider_calls_app. Qed.

Section FetchPaths.
Variable pf : platform.
Variables (t : memtrack_proc_type) (pid ty : Z) (s : state).

(** The modern provider is there. *)
Lemma fetch_modern svc s1 :
  get_aidl_instance pf s = (Some svc, s1) →
  let ty' := to_int (to_uint32 ty) in
  let reply := svc (trace s1) pid ty' in
  memtrack_proc_get_type pf t pid ty s
  = (if status_isOk reply
     then (0, store_records aidl_size aidl_flags (aidl_records reply) t)
     else (-1, t),
     after (EvAidlGetMemory pid ty') s1).
Proof.
  intros Haidl ty' reply. unfold memtrack_proc_get_type.
  rewrite (bind_run _ _ _ _ _ Haidl).
  unfold aidl_getMemory, after. run_locator.
  fold ty' reply. by destruct (status_isOk reply).
Qed.

(** Neither provider is there. *)
Lemma fetch_unavailable s1 s2 :
  get_aidl_instance pf s = (None, s1) →
  get_hidl_instance pf s1 = (None, s2) →
  memtrack_proc_get_type pf t pid ty s = ((-1, t), s2).
Proof.
  intros Haidl Hhidl. unfold memtrack_proc_get_type.
  rewrite (bind_run _ _ _ _ _ Haidl), (bind_run _ _ _ _ _ Hhidl). done.
Qed.

(** Only the legacy provider is there. *)
Lemma fetch_legacy svc s1 s2 :
  get_aidl_instance pf s = (None, s1) →
  get_hidl_instance pf s1 = (Some svc, s2) →
  let reply := svc (trace s2) pid ty in
  let result :=
    match callback_args reply with
    | Some (status, recs) =>
        (if bool_decide (status = SUCCESS) then 0 else -1, set_records recs t)
    | None => (0, t)
    end in
  memtrack_proc_get_type pf t pid ty s
  = ((if ret_isOk reply then result.1 else -1, result.2),
     after (EvHidlGetMemory pid ty) s2).
Proof.
  intros Haidl Hhidl reply result. unfold memtrack_proc_get_type.
  rewrite (bind_run _ _ _ _ _ Haidl), (bind_run _ _ _ _ _ Hhidl).
  unfold hidl_getMemory, after. run_locator.
  fold reply. subst result.
  destruct (callback_args reply) as [[status recs]|]; [|done].
  rewrite getMemory_callback_spec. done.
Qed.
End FetchPaths.

(** A fetch returns 0 or -1, calls a provider at most once, and has called one
    if it returns 0. *)
Lemma memtrack_proc_get_type_calls pf t pid ty s r t' s' :
  to_int (to_uint32 ty) = ty →
  memtrack_proc_get_type pf t pid ty s = ((r, t'), s') →
  (r = 0 ∨ r = -1)
  ∧ ∃ last, provider_calls (trace s') = provider_calls (trace s) ++ last
      ∧ (last = [] ∨ last = [(pid, ty)])
      ∧ (r = 0 → last = [(pid, ty)]).
Proof.
  intros Hty Hrun.
  destruct (get_aidl_instance_run pf s) as (ra & s1 & Haidl & Hcalls1 & _).
  destruct ra as [svc|].
  - rewrite (fetch_modern pf t pid ty s svc s1 Haidl), Hty in Hrun.
    destruct (status_isOk _); simplify_eq; (split; [auto|]);
      exists [(pid, ty)]; rewrite provider_calls_after_aidl, Hcalls1; auto.
  - destruct (get_hidl_instance_run pf s1) as (rh & s2 & Hhidl & Hcalls2 & _).
    destruct rh as [svc|].
    + rewrite (fetch_legacy pf t pid ty s svc s1 s2 Haidl Hhidl) in Hrun.
      assert (provider_calls (trace (after (EvHidlGetMemory pid ty) s2))
              = provider_calls (trace s) ++ [(pid, ty)]) as Hcalls.
      { by rewrite provider_calls_after_hidl, Hcalls2, Hcalls1. }
      simplify_eq. split.
      * destruct (ret_isOk _); [|auto].
        destruct (callback_args _) as [[status recs]|]; simpl; [|auto].
        case_bool_decide; auto.
      * exists [(pid, ty)]. auto.
    + rewrite (fetch_unavailable pf t pid ty s s1 s2 Haidl Hhidl) in Hrun.
      simplify_eq. split; [auto|].
      exists []. rewrite app_nil_r, Hcalls2, Hcalls1.
      split_and!; [done|auto|]. intros [=].
Qed.

Lemma initial_state_agrees pf : statics_agree pf initial_state.
Proof. split_and!; intros ? [=]. Qed.

(** ** Theorems on the record fetcher *)

(** C6. Whatever a provider hands over is stored as it is.  When the modern
    provider answers with success, the records stored are its records, as many
    and in the same order, each with the same size and the same flags (bit for
    bit, and as numbers for the non-negative values a size and a flag set
    have); when the legacy provider invokes the callback, the records stored
    are exactly the records it passed. *)
Theorem fetch_stores_records_unchanged pf t pid ty s :
  let stored := records (memtrack_proc_get_type pf t pid ty s).1.2 in
  (∀ svc s1,
     get_aidl_instance pf s = (Some svc, s1) →
     let reply := svc (trace s1) pid (to_int (to_uint32 ty)) in
     status_isOk reply = true →
     Forall2 same_record (aidl_records reply) stored)
  ∧ (∀ svc s1 s2 status recs,
     get_aidl_instance pf s = (None, s1) →
     get_hidl_instance pf s1 = (Some svc, s2) →
     callback_args (svc (trace s2) pid ty) = Some (status, recs) →
     stored = recs).
Proof.
  intros stored. subst stored. split.
  - intros svc s1 Haidl reply Hok.
    rewrite (fetch_modern pf t pid ty s svc s1 Haidl). fold reply.
    rewrite Hok. cbn [fst snd]. rewrite records_store_records.
    apply Forall2_fmap_r, Forall_Forall2_diag, Forall_forall.
    intros raw _. apply same_record_copied.
  - intros svc s1 s2 status recs Haidl Hhidl Hcb.
    rewrite (fetch_legacy pf t pid ty s svc s1 s2 Haidl Hhidl), Hcb. done.
Qed.

Lemma fetch_stores_records_unchanged_witness :
  Forall2 same_record [V_aidl.mkRecord 100 2; V_aidl.mkRecord 50 20]
    (records (memtrack_proc_get_type modern_platform (mkProcType 0 [])
                1234 2 initial_state).1.2)
  ∧ records (memtrack_proc_get_type failing_legacy_platform (mkProcType 0 [])
               1234 2 initial_state).1.2
    = [mkRecord 100 2].
Proof.
  split.
  - refine (proj1 (fetch_stores_records_unchanged modern_platform
                     (mkProcType 0 []) 1234 2 initial_state)
              modern_service _ eq_refl eq_refl).
  - refine (proj2 (fetch_stores_records_unchanged failing_legacy_platform
                     (mkProcType 0 []) 1234 2 initial_state)
              failing_legacy_service _ _ MEMORY_TRACKING_NOT_SUPPORTED _
              eq_refl eq_refl eq_refl).
Defined.

(** What a fetch on the legacy path returns and leaves in the entry: an error
    for a failed transaction or a status other than SUCCESS, and in the entry
    the records the callback was given, whatever the status. *)
Lemma fetch_legacy_result pf t pid ty s svc s1 s2 :
  get_aidl_instance pf s = (None, s1) →
  get_hidl_instance pf s1 = (Some svc, s2) →
  let reply := svc (trace s2) pid ty in
  let res := (memtrack_proc_get_type pf t pid ty s).1 in
  (ret_isOk reply = false → res.1 = -1)
  ∧ (∀ status recs,
       callback_args reply = Some (status, recs) →
       (status ≠ SUCCESS → res.1 = -1) ∧ records res.2 = recs).
Proof.
  intros Haidl Hhidl reply res. subst res.
  rewrite (fetch_legacy pf t pid ty s svc s1 s2 Haidl Hhidl). fold reply. simpl.
  split.
  - by intros ->.
  - intros status recs ->. simpl. split; [|done].
    intros Hst. rewrite bool_decide_eq_false_2 by done. by destruct (ret_isOk _).
Qed.

(** C4. The legacy provider reports MEMORY_TRACKING_NOT_SUPPORTED and passes
    one record to the callback: the fetch returns -1, and the entry handed back
    holds that record, it is not empty. *)
Theorem legacy_failure_keeps_records :
  (memtrack_proc_get_type failing_legacy_platform (mkProcType 0 [])
     1234 2 initial_state).1
  = (-1, mkProcType 0 [mkRecord 100 2]).
Proof. reflexivity. Qed.

(** C8. Where neither the modern nor the legacy provider resolves, a fetch
    returns -1, leaves the entry as it was and calls no provider. *)
Theorem fetch_without_provider pf t pid ty s :
  statics_agree pf s →
  resolved_aidl pf = None →
  resolved_hidl pf = None →
  ∃ s', memtrack_proc_get_type pf t pid ty s = ((-1, t), s')
    ∧ provider_calls (trace s') = provider_calls (trace s)
    ∧ statics_agree pf s'.
Proof.
  intros Hagree Hno_aidl Hno_hidl.
  destruct (get_aidl_instance_run pf s) as (ra & s1 & Haidl & Hcalls1 & Hres1).
  destruct (Hres1 Hagree) as [-> Hagree1]. rewrite Hno_aidl in Haidl.
  destruct (get_hidl_instance_run pf s1) as (rh & s2 & Hhidl & Hcalls2 & Hres2).
  destruct (Hres2 Hagree1) as [-> Hagree2]. rewrite Hno_hidl in Hhidl.
  exists s2. split_and!; [|congruence|done].
  by apply fetch_unavailable with s1.
Qed.

Lemma fetch_without_provider_witness :
  (statics_agree bare_platform initial_state
   ∧ resolved_aidl bare_platform = None
   ∧ resolved_hidl bare_platform = None)
  ∧ ∃ s', memtrack_proc_get_type bare_platform (mkProcType 0 []) 1234 2
            initial_state = ((-1, mkProcType 0 []), s')
      ∧ provider_calls (trace s') = provider_calls (trace initial_state)
      ∧ statics_agree bare_platform s'.
Proof.
  pose proof (initial_state_agrees bare_platform) as Hagree.
  split; [by split_and!|].
  exact (fetch_without_provider bare_platform (mkProcType 0 []) 1234 2
           initial_state Hagree eq_refl eq_refl).
Defined.

(** ** The population loop *)

Lemma to_int_to_uint32_small z : 0 ≤ z < 2 ^ 31 → to_int (to_uint32 z) = z.
Proof.
  intros Hz. unfold to_int, to_uint32, to_signed, to_unsigned.
  rewrite (Z.mod_small z) by lia. rewrite Z.mod_small by lia. lia.
Qed.

Lemma memtrack_proc_get_type_result pf t pid ty s :
  (memtrack_proc_get_type pf t pid ty s).1.1 = 0
  ∨ (memtrack_proc_get_type pf t pid ty s).1.1 = -1.
Proof.
  destruct (get_aidl_instance_run pf s) as ([svc|] & s1 & Haidl & _).
  - rewrite (fetch_modern pf t pid ty s svc s1 Haidl).
    destruct (status_isOk _); auto.
  - destruct (get_hidl_instance_run pf s1) as ([svc|] & s2 & Hhidl & _).
    + rewrite (fetch_legacy pf t pid ty s svc s1 s2 Haidl Hhidl). simpl.
      destruct (ret_isOk _); [|auto].
      destruct (callback_args _) as [[status recs]|]; simpl; [|auto].
      case_bool_decide; auto.
    + rewrite (fetch_unavailable pf t pid ty s s1 s2 Haidl Hhidl). auto.
Qed.

Lemma memtrack_proc_get_loop_result pf n : ∀ i p pid s,
  (memtrack_proc_get_loop pf n i p pid s).1.1 = 0
  ∨ (memtrack_proc_get_loop pf n i p pid s).1.1 = -1.
Proof.
  induction n as [|n IH]; intros i p pid s; [by left|].
  cbn [memtrack_proc_get_loop].
  pose proof (memtrack_proc_get_type_result pf (types p !!! i) pid (Z.of_nat i) s)
    as Hres.
  destruct (memtrack_proc_get_type pf (types p !!! i) pid (Z.of_nat i) s)
    as [[r t] s1] eqn:Hfetch.
  rewrite (bind_run _ _ _ _ _ Hfetch). simpl in Hres.
  case_bool_decide; [exact Hres|apply IH].
Qed.

(** Once the first [k] rounds have all returned 0, the loop is where they left
    it, at index [k]. *)
Lemma memtrack_proc_get_loop_prefix pf k : ∀ m p pid s,
  Forall (λ r, r = 0) (fetch_prefix pf k p pid s).1.1 →
  memtrack_proc_get_loop pf (k + m) 0 p pid s
  = memtrack_proc_get_loop pf m k (fetch_prefix pf k p pid s).1.2 pid
      (fetch_prefix pf k p pid s).2.
Proof.
  induction k as [|k IH]; intros m p pid s Hok; [done|].
  cbn [fetch_prefix] in *.
  destruct (fetch_prefix pf k p pid s) as [[rs pk] sk] eqn:Hpre.
  destruct (memtrack_proc_get_type pf (types pk !!! k) pid (Z.of_nat k) sk)
    as [[r t] s1] eqn:Hfetch.
  simpl in Hok. apply Forall_app in Hok as [Hrs Hr].
  apply Forall_singleton in Hr as ->.
  replace (S k + m)%nat with (k + S m)%nat by lia.
  rewrite IH by (by rewrite Hpre). rewrite Hpre. simpl.
  by rewrite (bind_run _ _ _ _ _ Hfetch).
Qed.

(** Rounds that return 0 have each called a provider, for the types in
    enumeration order. *)
Lemma fetch_prefix_calls pf k : ∀ p pid s,
  (k ≤ Z.to_nat NUM_TYPES)%nat →
  Forall (λ r, r = 0) (fetch_prefix pf k p pid s).1.1 →
  provider_calls (trace (fetch_prefix pf k p pid s).2)
  = provider_calls (trace s)
    ++ ((λ t, (pid, MemtrackType_val t)) <$> take k all_MemtrackType).
Proof.
  induction k as [|k IH]; intros p pid s Hk Hok.
  { simpl. by rewrite app_nil_r. }
  cbn [fetch_prefix] in *.
  destruct (fetch_prefix pf k p pid s) as [[rs pk] sk] eqn:Hpre.
  destruct (memtrack_proc_get_type pf (types pk !!! k) pid (Z.of_nat k) sk)
    as [[r t] s1] eqn:Hfetch.
  simpl in Hok. apply Forall_app in Hok as [Hrs Hr].
  apply Forall_singleton in Hr as ->.
  specialize (IH p pid s). rewrite Hpre in IH. simpl in IH.
  apply memtrack_proc_get_type_calls in Hfetch
    as (_ & last & Hcalls & _ & Hlast).
  2:{ apply to_int_to_uint32_small. change NUM_TYPES with 5 in Hk. lia. }
  simpl. rewrite Hcalls, IH, (Hlast eq_refl) by (done || lia).
  rewrite <- app_assoc. f_equal.
  change NUM_TYPES with 5 in Hk.
  do 5 (destruct k as [|k]; [done|]). lia.
Qed.

(** The loop overwrites entries of the array and never changes its length. *)
Lemma memtrack_proc_get_loop_wf pf n : ∀ i p pid s,
  proc_wf p → proc_wf (memtrack_proc_get_loop pf n i p pid s).1.2.
Proof.
  induction n as [|n IH]; intros i p pid s Hwf; [done|].
  cbn [memtrack_proc_get_loop].
  destruct (memtrack_proc_get_type pf (types p !!! i) pid (Z.of_nat i) s)
    as [[r t] s1] eqn:Hfetch.
  rewrite (bind_run _ _ _ _ _ Hfetch).
  assert (proc_wf (set_types (<[i := t]> (types p)) p)) as Hwf'.
  { unfold proc_wf, set_types in *. simpl. by rewrite length_insert. }
  case_bool_decide; [done|by apply IH].
Qed.

Lemma memtrack_proc_get_Some pf p pid s :
  memtrack_proc_get pf (Some p) pid s
  = let res :=
      memtrack_proc_get_loop pf (Z.to_nat NUM_TYPES) 0 (set_pid pid p) pid s in
    ((res.1.1, Some res.1.2), res.2).
Proof.
  unfold memtrack_proc_get.
  destruct (memtrack_proc_get_loop pf _ _ _ _ s) as [[r p'] s'] eqn:Hloop.
  by rewrite (bind_run _ _ _ _ _ Hloop).
Qed.

(** ** Theorems on the process snapshot *)

(** C3. [memtrack_proc_get] fetches the types in enumeration order and stops at
    the first fetch that fails.  If the fetches for the first [k] types return
    0 and the one for type [k] does not, then the call returns what that fetch
    returned and leaves the snapshot and the state as that fetch left them, so
    nothing is done for a later type: the providers have been called for the
    first [k] types in order, and after that at most for type [k]. *)
Theorem memtrack_proc_get_stops_at_first_error pf p pid s (k : nat) :
  let pre := fetch_prefix pf k (set_pid pid p) pid s in
  let failing :=
    memtrack_proc_get_type pf (types pre.1.2 !!! k) pid (Z.of_nat k) pre.2 in
  (k < Z.to_nat NUM_TYPES)%nat →
  Forall (λ r, r = 0) pre.1.1 →
  failing.1.1 ≠ 0 →
  memtrack_proc_get pf (Some p) pid s
  = ((failing.1.1,
      Some (set_types (<[k := failing.1.2]> (types pre.1.2)) pre.1.2)),
     failing.2)
  ∧ ∃ last,
      (last = [] ∨ last = [(pid, Z.of_nat k)])
      ∧ provider_calls (trace failing.2)
        = provider_calls (trace s)
          ++ ((λ t, (pid, MemtrackType_val t)) <$> take k all_MemtrackType)
          ++ last.
Proof.
  intros pre failing Hk Hok Hfail. subst failing.
  destruct (memtrack_proc_get_type pf _ pid _ pre.2) as [[r t] s1] eqn:Hfetch.
  simpl in Hfail. cbn [fst snd]. split.
  - rewrite memtrack_proc_get_Some. cbv zeta.
    replace (Z.to_nat NUM_TYPES) with (k + S (Z.to_nat NUM_TYPES - S k))%nat
      by lia.
    rewrite memtrack_proc_get_loop_prefix by done. fold pre.
    cbn [memtrack_proc_get_loop].
    rewrite (bind_run _ _ _ _ _ Hfetch).
    by rewrite bool_decide_eq_true_2 by done.
  - apply memtrack_proc_get_type_calls in Hfetch
      as (_ & last & Hcalls & Hlast & _).
    2:{ apply to_int_to_uint32_small. change NUM_TYPES with 5 in Hk. lia. }
    exists last. split; [done|]. rewrite Hcalls. subst pre.
    rewrite fetch_prefix_calls by (done || lia). by rewrite <- app_assoc.
Qed.

Lemma memtrack_proc_get_stops_at_first_error_witness :
  ((2 < Z.to_nat NUM_TYPES)%nat
   ∧ Forall (λ r, r = 0)
       (fetch_prefix graphics_failing_platform 2
          (set_pid 1234 memtrack_proc_new) 1234 initial_state).1.1)
  ∧ (memtrack_proc_get graphics_failing_platform (Some memtrack_proc_new) 1234
       initial_state).1.1 = -1
  ∧ provider_calls
      (trace (memtrack_proc_get graphics_failing_platform
                (Some memtrack_proc_new) 1234 initial_state).2)
    = [(1234, 0); (1234, 1); (1234, 2)].
Proof.
  assert (2 < Z.to_nat NUM_TYPES)%nat as Hk by (vm_compute; lia).
  assert (Forall (λ r, r = 0)
            (fetch_prefix graphics_failing_platform 2
               (set_pid 1234 memtrack_proc_new) 1234 initial_state).1.1) as Hok
    by (repeat constructor).
  split; [done|].
  destruct (memtrack_proc_get_stops_at_first_error graphics_failing_platform
              memtrack_proc_new 1234 initial_state 2 Hk Hok) as [Hget _].
  { discriminate. }
  rewrite Hget. split; reflexivity.
Defined.

(** C5, as the code has it.  [memtrack_proc_get] reports the invalid argument,
    [-EINVAL], for a null snapshot, whatever the pid, and then before anything
    else is done: the state is untouched, no fetch is made.  The pid is not
    examined: with a snapshot to fill the call returns 0 or -1. *)
Theorem memtrack_proc_get_invalid_argument pf pid s :
  memtrack_proc_get pf None pid s = ((- EINVAL, None), s)
  ∧ ∀ p, (memtrack_proc_get pf (Some p) pid s).1.1 = 0
         ∨ (memtrack_proc_get pf (Some p) pid s).1.1 = -1.
Proof.
  split; [done|]. intros p. rewrite memtrack_proc_get_Some.
  apply memtrack_proc_get_loop_result.
Qed.

(** C5, as stated, fails: with the pid -1 and a fresh snapshot the call does
    not report an invalid argument, it asks the provider for all five types
    with that pid and returns 0. *)
Lemma negative_pid_is_fetched :
  (memtrack_proc_get modern_platform (Some memtrack_proc_new) (-1)
     initial_state).1.1 = 0
  ∧ (memtrack_proc_get modern_platform (Some memtrack_proc_new) (-1)
       initial_state).1.1 ≠ - EINVAL
  ∧ provider_calls
      (trace (memtrack_proc_get modern_platform (Some memtrack_proc_new) (-1)
                initial_state).2)
    = [(-1, 0); (-1, 1); (-1, 2); (-1, 3); (-1, 4)].
Proof. split_and!; [reflexivity|discriminate|reflexivity]. Qed.

(** ** Theorem on the build-time assertions *)

(** C9. A build in which the assertions at the head of the file hold has the
    same uint32_t value in the legacy and in the modern interface for each of
    the five memory types and for each of the nine flags (the same number,
    where both are written as numbers below 2^32), hence the same mask for
    every set of flags: a mask computed once selects the same records
    whichever provider supplied them. *)
Theorem encodings_agree hidl_type aidl_type hidl_flag aidl_flag :
  static_asserts hidl_type aidl_type hidl_flag aidl_flag = true →
  (∀ t, to_uint32 (hidl_type t) = to_uint32 (aidl_type t))
  ∧ (∀ f, to_uint32 (hidl_flag f) = to_uint32 (aidl_flag f))
  ∧ (∀ t, 0 ≤ hidl_type t < 2 ^ 32 → 0 ≤ aidl_type t < 2 ^ 32 →
          hidl_type t = aidl_type t)
  ∧ (∀ f, 0 ≤ hidl_flag f < 2 ^ 32 → 0 ≤ aidl_flag f < 2 ^ 32 →
          hidl_flag f = aidl_flag f)
  ∧ (∀ fs, mask_of hidl_flag fs = mask_of aidl_flag fs)
  ∧ (∀ fs r, flags_match (mask_of hidl_flag fs) r
             = flags_match (mask_of aidl_flag fs) r).
Proof.
  unfold static_asserts, static_assert_flag, static_assert_type.
  intros Hasserts. repeat (apply andb_prop in Hasserts as [Hasserts ?%Z.eqb_eq]).
  apply Z.eqb_eq in Hasserts.
  assert (∀ t, to_uint32 (hidl_type t) = to_uint32 (aidl_type t)) as Htype
    by (by intros []).
  assert (∀ f, to_uint32 (hidl_flag f) = to_uint32 (aidl_flag f)) as Hflag
    by (by intros []).
  assert (∀ fs, mask_of hidl_flag fs = mask_of aidl_flag fs) as Hmask.
  { induction fs as [|f fs IH]; [done|]. simpl. by rewrite Hflag, IH. }
  split_and!; [done|done| | |done|].
  - intros t Hh Ha. specialize (Htype t). unfold to_uint32 in Htype.
    by rewrite !to_unsigned_small in Htype.
  - intros f Hh Ha. specialize (Hflag f). unfold to_uint32 in Hflag.
    by rewrite !to_unsigned_small in Hflag.
  - intros fs r. by rewrite Hmask.
Qed.

Lemma encodings_agree_witness :
  static_asserts V1_0.MemtrackType_val V_aidl.MemtrackType_val
    V1_0.MemtrackFlag_val V_aidl.MemtrackFlag_val = true
  ∧ (∀ fs, mask_of V1_0.MemtrackFlag_val fs = mask_of V_aidl.MemtrackFlag_val fs).
Proof.
  assert (static_asserts V1_0.MemtrackType_val V_aidl.MemtrackType_val
            V1_0.MemtrackFlag_val V_aidl.MemtrackFlag_val = true) as Hasserts
    by reflexivity.
  split; [done|].
  exact (proj1 (proj2 (proj2 (proj2 (proj2
           (encodings_agree _ _ _ _ Hasserts)))))).
Defined.

(** ** Further properties: the service locator *)

Lemma count_events_app P tr1 tr2 :
  count_events P (tr1 ++ tr2) = (count_events P tr1 + count_events P tr2)%nat.
Proof. induction tr1 as [|e tr1 IH]; simpl; lia. Qed.

(** X1. [get_hidl_instance] remembers what it found: called again on the state
    it left, it returns the same handle and changes nothing, so there is no
    second lookup and no second diagnostic. *)
Theorem get_hidl_instance_memoized pf s :
  get_hidl_instance pf (get_hidl_instance pf s).2 = get_hidl_instance pf s.
Proof.
  unfold get_hidl_instance.
  destruct s as [d b [[m|]|] [|] tr], (getService pf) eqn:Hsvc;
    run_locator; rewrite ?Hsvc; reflexivity.
Qed.

(** X2. [get_aidl_instance] remembers whether the service is declared and the
    binder it waited for: called again on the state it left, it returns the
    same handle and changes nothing. *)
Theorem get_aidl_instance_memoized pf s :
  get_aidl_instance pf (get_aidl_instance pf s).2 = get_aidl_instance pf s.
Proof.
  unfold get_aidl_instance.
  destruct s as [[[|]|] [b|] m lg tr], (isDeclared pf) eqn:Hdecl;
    run_locator; rewrite ?Hdecl; reflexivity.
Qed.

Ltac solve_once :=
  unfold looked_up_once; run_locator; rewrite ?count_events_app; simpl;
  intros (? & ? & ? & ?); split_and!; lia.

Lemma get_aidl_instance_once pf s :
  looked_up_once s → looked_up_once (get_aidl_instance pf s).2.
Proof.
  unfold get_aidl_instance.
  destruct s as [[[|]|] [b|] m lg tr], (isDeclared pf) eqn:Hdecl; solve_once.
Qed.

Lemma get_hidl_instance_once pf s :
  looked_up_once s → looked_up_once (get_hidl_instance pf s).2.
Proof.
  unfold get_hidl_instance.
  destruct s as [d b [[m|]|] [|] tr], (getService pf) eqn:Hsvc; solve_once.
Qed.

Lemma after_getMemory_once e s :
  is_EvIsDeclared e = false → is_EvWaitForService e = false →
  is_EvGetService e = false → is_EvLogE e = false →
  looked_up_once s → looked_up_once (after e s).
Proof.
  unfold looked_up_once, after. simpl. rewrite !count_events_app. simpl.
  intros -> -> -> -> (? & ? & ? & ?). split_and!; lia.
Qed.

(** The modern locator leaves the legacy side alone. *)
Lemma get_aidl_instance_legacy_untouched pf s :
  legacy_untouched s (get_aidl_instance pf s).2.
Proof.
  unfold get_aidl_instance, legacy_untouched.
  destruct s as [[[|]|] [b|] m lg tr], (isDeclared pf) eqn:Hdecl;
    run_locator; (split_and!; [done|done|]);
    first [ exists []; split; [by rewrite app_nil_r|constructor]
          | eexists; split; [by rewrite <- ?app_assoc|by repeat constructor] ].
Qed.

Lemma legacy_untouched_after e s s' :
  is_legacy_event e = false →
  legacy_untouched s s' → legacy_untouched s (after e s').
Proof.
  intros He (Hm & Hl & new & Htr & Hnew). unfold legacy_untouched, after. simpl.
  split_and!; [done|done|]. exists (new ++ [e]).
  rewrite Htr, <- app_assoc. split; [done|].
  apply Forall_app. split; [done|]. by constructor.
Qed.

Lemma statics_agree_after pf e s :
  statics_agree pf s → statics_agree pf (after e s).
Proof. done. Qed.

(** What the locators return on a state that agrees with the platform. *)
Lemma get_aidl_instance_resolved pf s :
  statics_agree pf s →
  get_aidl_instance pf s = (resolved_aidl pf, (get_aidl_instance pf s).2)
  ∧ statics_agree pf (get_aidl_instance pf s).2.
Proof.
  intros Hagree.
  destruct (get_aidl_instance_run pf s) as (r & s1 & Hrun & _ & Hres).
  destruct (Hres Hagree) as [-> Hagree1]. by rewrite Hrun.
Qed.

Lemma get_hidl_instance_resolved pf s :
  statics_agree pf s →
  get_hidl_instance pf s = (resolved_hidl pf, (get_hidl_instance pf s).2)
  ∧ statics_agree pf (get_hidl_instance pf s).2.
Proof.
  intros Hagree.
  destruct (get_hidl_instance_run pf s) as (r & s1 & Hrun & _ & Hres).
  destruct (Hres Hagree) as [-> Hagree1]. by rewrite Hrun.
Qed.

(** ** Further properties: the record fetcher *)

(** The state a fetch leaves: the one after the modern call, the one after the
    legacy call, or the one after the two lookups. *)
Lemma fetch_state pf t q ty s :
  let s1 := (get_aidl_instance pf s).2 in
  let s2 := (get_hidl_instance pf s1).2 in
  let s' := (memtrack_proc_get_type pf t q ty s).2 in
  s' = after (EvAidlGetMemory q (to_int (to_uint32 ty))) s1
  ∨ s' = after (EvHidlGetMemory q ty) s2
  ∨ s' = s2.
Proof.
  intros s1 s2 s'. subst s1 s2 s'.
  destruct (get_aidl_instance pf s) as [[svc|] s1] eqn:Haidl; simpl.
  - left. by rewrite (fetch_modern pf t q ty s svc s1 Haidl).
  - right. destruct (get_hidl_instance pf s1) as [[svc|] s2] eqn:Hhidl; simpl.
    + left. by rewrite (fetch_legacy pf t q ty s svc s1 s2 Haidl Hhidl).
    + right. by rewrite (fetch_unavailable pf t q ty s s1 s2 Haidl Hhidl).
Qed.

Lemma fetch_once pf t q ty s :
  looked_up_once s → looked_up_once (memtrack_proc_get_type pf t q ty s).2.
Proof.
  intros Honce.
  pose proof (get_aidl_instance_once pf s Honce) as Honce1.
  pose proof (get_hidl_instance_once pf _ Honce1) as Honce2.
  destruct (fetch_state pf t q ty s) as [-> | [-> | ->]];
    [by apply after_getMemory_once..|done].
Qed.

Lemma fetch_agree pf t q ty s :
  statics_agree pf s → statics_agree pf (memtrack_proc_get_type pf t q ty s).2.
Proof.
  intros Hagree.
  destruct (get_aidl_instance_resolved pf s Hagree) as [_ Hagree1].
  destruct (get_hidl_instance_resolved pf _ Hagree1) as [_ Hagree2].
  by destruct (fetch_state pf t q ty s) as [-> | [-> | ->]].
Qed.

(** A fetch with the modern provider resolved. *)
Lemma fetch_modern_resolved pf t q ty s svc :
  statics_agree pf s →
  resolved_aidl pf = Some svc →
  let s1 := (get_aidl_instance pf s).2 in
  let reply := svc (trace s1) q (to_int (to_uint32 ty)) in
  memtrack_proc_get_type pf t q ty s
  = (if status_isOk reply
     then (0, store_records aidl_size aidl_flags (aidl_records reply) t)
     else (-1, t),
     after (EvAidlGetMemory q (to_int (to_uint32 ty))) s1).
Proof.
  intros Hagree Hres s1 reply.
  destruct (get_aidl_instance_resolved pf s Hagree) as [Hrun _].
  rewrite Hres in Hrun. exact (fetch_modern pf t q ty s svc s1 Hrun).
Qed.

(** X3. When the modern provider resolves, a fetch goes to it and to nothing
    else: the legacy service is neither looked up nor called and no diagnostic
    is logged, also when the modern call fails; a failed call returns -1 and
    leaves the entry as it was. *)
Theorem modern_provider_no_fallback pf t q ty s svc :
  statics_agree pf s →
  resolved_aidl pf = Some svc →
  let s1 := (get_aidl_instance pf s).2 in
  let reply := svc (trace s1) q (to_int (to_uint32 ty)) in
  let res := memtrack_proc_get_type pf t q ty s in
  legacy_untouched s res.2
  ∧ trace res.2 = trace s1 ++ [EvAidlGetMemory q (to_int (to_uint32 ty))]
  ∧ (status_isOk reply = false → res.1 = (-1, t)).
Proof.
  intros Hagree Hres s1 reply res. subst res.
  rewrite (fetch_modern_resolved pf t q ty s svc Hagree Hres). fold s1 reply.
  split_and!.
  - apply legacy_untouched_after; [done|].
    apply get_aidl_instance_legacy_untouched.
  - done.
  - by intros ->.
Qed.

Lemma modern_provider_no_fallback_witness :
  (statics_agree both_platform initial_state
   ∧ resolved_aidl both_platform = Some failing_modern_service)
  ∧ legacy_untouched initial_state
      (memtrack_proc_get_type both_platform (mkProcType 0 [mkRecord 3 4])
         1234 2 initial_state).2
  ∧ (memtrack_proc_get_type both_platform (mkProcType 0 [mkRecord 3 4])
       1234 2 initial_state).1
    = (-1, mkProcType 0 [mkRecord 3 4]).
Proof.
  pose proof (initial_state_agrees both_platform) as Hagree.
  split; [done|].
  destruct (modern_provider_no_fallback both_platform
              (mkProcType 0 [mkRecord 3 4]) 1234 2 initial_state
              failing_modern_service Hagree eq_refl) as (Hlegacy & _ & Hfail).
  split; [exact Hlegacy|exact (Hfail eq_refl)].
Defined.

(** X4. On a state that agrees with the platform a fetch returns 0 in these
    cases only: the modern provider resolves and its call succeeds; or it does
    not resolve, the legacy one does, the transaction goes through and the
    callback, if it is invoked at all, is given SUCCESS. *)
Theorem fetch_succeeds_iff pf t q ty s :
  statics_agree pf s →
  let s1 := (get_aidl_instance pf s).2 in
  let s2 := (get_hidl_instance pf s1).2 in
  (memtrack_proc_get_type pf t q ty s).1.1 = 0
  ↔ match resolved_aidl pf with
    | Some svc => status_isOk (svc (trace s1) q (to_int (to_uint32 ty))) = true
    | None =>
        match resolved_hidl pf with
        | Some svc =>
            ret_isOk (svc (trace s2) q ty) = true
            ∧ ∀ status recs,
                callback_args (svc (trace s2) q ty) = Some (status, recs) →
                status = SUCCESS
        | None => False
        end
    end.
Proof.
  intros Hagree s1 s2.
  destruct (get_aidl_instance_resolved pf s Hagree) as [Haidl Hagree1].
  fold s1 in Haidl, Hagree1.
  destruct (get_hidl_instance_resolved pf s1 Hagree1) as [Hhidl _].
  fold s2 in Hhidl.
  destruct (resolved_aidl pf) as [svc|].
  - rewrite (fetch_modern pf t q ty s svc s1 Haidl).
    destruct (status_isOk _); simpl; split; (done || lia).
  - destruct (resolved_hidl pf) as [svc|].
    + rewrite (fetch_legacy pf t q ty s svc s1 s2 Haidl Hhidl). simpl.
      destruct (ret_isOk _); simpl; [|split; [lia|by intros [? _]]].
      destruct (callback_args _) as [[status recs]|]; simpl.
      * case_bool_decide as Hst; split.
        -- intros _. split; [done|]. by intros ? ? [= <- _].
        -- done.
        -- lia.
        -- intros [_ Hall]. by specialize (Hall _ _ eq_refl).
      * split; [|done]. intros _. split; [done|]. intros ? ? [=].
    + rewrite (fetch_unavailable pf t q ty s s1 s2 Haidl Hhidl). simpl.
      split; [lia|done].
Qed.

Lemma fetch_succeeds_iff_witness :
  statics_agree legacy_platform initial_state
  ∧ (memtrack_proc_get_type legacy_platform (mkProcType 0 []) 1234 2
       initial_state).1.1 = 0.
Proof.
  pose proof (initial_state_agrees legacy_platform) as Hagree.
  split; [done|].
  apply (fetch_succeeds_iff legacy_platform (mkProcType 0 []) 1234 2
           initial_state Hagree).
  split; [reflexivity|]. by intros ? ? [= <- _].
Defined.

(** A fetch writes the records of an entry and nothing else of it. *)
Lemma fetch_type pf t q ty s :
  type (memtrack_proc_get_type pf t q ty s).1.2 = type t.
Proof.
  destruct (get_aidl_instance pf s) as [[svc|] s1] eqn:Haidl.
  - rewrite (fetch_modern pf t q ty s svc s1 Haidl).
    by destruct (status_isOk _).
  - destruct (get_hidl_instance pf s1) as [[svc|] s2] eqn:Hhidl.
    + rewrite (fetch_legacy pf t q ty s svc s1 s2 Haidl Hhidl). simpl.
      by destruct (callback_args _) as [[status recs]|].
    + by rewrite (fetch_unavailable pf t q ty s s1 s2 Haidl Hhidl).
Qed.

(** ** Further properties: the process snapshot *)

Lemma memtrack_proc_get_loop_step pf n i p q s :
  memtrack_proc_get_loop pf (S n) i p q s
  = let f := memtrack_proc_get_type pf (types p !!! i) q (Z.of_nat i) s in
    let p' := set_types (<[i := f.1.2]> (types p)) p in
    if bool_decide (f.1.1 ≠ 0) then ((f.1.1, p'), f.2)
    else memtrack_proc_get_loop pf n (S i) p' q f.2.
Proof.
  cbn [memtrack_proc_get_loop].
  destruct (memtrack_proc_get_type pf (types p !!! i) q (Z.of_nat i) s)
    as [[r t] s1] eqn:Hfetch.
  rewrite (bind_run _ _ _ _ _ Hfetch). simpl. by case_bool_decide.
Qed.

Lemma memtrack_proc_get_loop_once pf n : ∀ i p q s,
  looked_up_once s → looked_up_once (memtrack_proc_get_loop pf n i p q s).2.
Proof.
  induction n as [|n IH]; intros i p q s Honce; [done|].
  rewrite memtrack_proc_get_loop_step. cbv zeta.
  pose proof (fetch_once pf (types p !!! i) q (Z.of_nat i) s Honce).
  case_bool_decide; [done|by apply IH].
Qed.

(** X5. The service managers are asked at most once each and the diagnostic
    is logged at most once, however often snapshots are populated: from a
    state in which each of these has happened at most once, and not at all
    while its static is unset, a call of [memtrack_proc_get] leads to a state
    of the same kind. *)
Theorem lookups_happen_once pf p q s :
  looked_up_once s →
  let s' := (memtrack_proc_get pf p q s).2 in
  looked_up_once s'
  ∧ (count_events is_EvIsDeclared (trace s') ≤ 1)%nat
  ∧ (count_events is_EvWaitForService (trace s') ≤ 1)%nat
  ∧ (count_events is_EvGetService (trace s') ≤ 1)%nat
  ∧ (count_events is_EvLogE (trace s') ≤ 1)%nat.
Proof.
  intros Honce s'.
  assert (looked_up_once s') as Honce'.
  { subst s'. destruct p as [p|]; [|done].
    rewrite memtrack_proc_get_Some. by apply memtrack_proc_get_loop_once. }
  split; [done|]. destruct Honce' as (H1 & H2 & H3 & H4).
  split_and!;
    repeat match goal with
           | H : (_ ≤ match ?x with _ => _ end)%nat |- _ => destruct x
           end; lia.
Qed.

Lemma lookups_happen_once_witness :
  looked_up_once initial_state
  ∧ (count_events is_EvLogE
       (trace (memtrack_proc_get bare_platform (Some memtrack_proc_new) 1234
                 (memtrack_proc_get bare_platform (Some memtrack_proc_new) 1234
                    initial_state).2).2) ≤ 1)%nat.
Proof.
  assert (looked_up_once initial_state) as Honce
    by (unfold looked_up_once; simpl; lia).
  split; [done|].
  pose proof (lookups_happen_once bare_platform (Some memtrack_proc_new) 1234
                initial_state Honce) as [Honce1 _].
  exact (proj2 (proj2 (proj2 (proj2
    (lookups_happen_once bare_platform (Some memtrack_proc_new) 1234 _
       Honce1))))).
Defined.

Lemma fmap_type_insert (l : list memtrack_proc_type) i t :
  type t = type (l !!! i) → type <$> <[i := t]> l = type <$> l.
Proof.
  intros Ht. rewrite list_fmap_insert.
  destruct (l !! i) as [x|] eqn:Hl.
  - apply list_insert_id. rewrite list_lookup_fmap, Hl. simpl.
    rewrite Ht. by rewrite (list_lookup_total_correct _ _ _ Hl).
  - apply list_insert_ge. rewrite length_fmap. by apply lookup_ge_None.
Qed.

Lemma memtrack_proc_get_loop_shape pf n : ∀ i p q s,
  let p' := (memtrack_proc_get_loop pf n i p q s).1.2 in
  pid p' = pid p
  ∧ length (types p') = length (types p)
  ∧ type <$> types p' = type <$> types p.
Proof.
  induction n as [|n IH]; intros i p q s; [done|].
  rewrite memtrack_proc_get_loop_step. cbv zeta.
  set (f := memtrack_proc_get_type pf (types p !!! i) q (Z.of_nat i) s).
  set (p1 := set_types (<[i := f.1.2]> (types p)) p).
  assert (pid p1 = pid p ∧ length (types p1) = length (types p)
          ∧ type <$> types p1 = type <$> types p) as (Hpid & Hlen & Hty).
  { subst p1. simpl. split_and!; [done|by rewrite length_insert|].
    apply fmap_type_insert. subst f. apply fetch_type. }
  case_bool_decide; [done|].
  destruct (IH (S i) p1 q f.2) as (Hpid' & Hlen' & Hty').
  split_and!; congruence.
Qed.

(** X6. Whether it succeeds or fails, [memtrack_proc_get] on a snapshot
    records the pid in it, keeps the number of entries and the [type] member of
    every entry: only record lists are rewritten. *)
Theorem memtrack_proc_get_keeps_shape pf p q s :
  ∃ p', (memtrack_proc_get pf (Some p) q s).1.2 = Some p'
    ∧ pid p' = q
    ∧ length (types p') = length (types p)
    ∧ type <$> types p' = type <$> types p.
Proof.
  rewrite memtrack_proc_get_Some. cbv zeta. eexists. split; [reflexivity|].
  apply (memtrack_proc_get_loop_shape pf (Z.to_nat NUM_TYPES) 0 (set_pid q p) q s).
Qed.

Lemma fetch_prefix_S pf k p q s :
  fetch_prefix pf (S k) p q s
  = let pre := fetch_prefix pf k p q s in
    let f := memtrack_proc_get_type pf (types pre.1.2 !!! k) q (Z.of_nat k)
               pre.2 in
    (pre.1.1 ++ [f.1.1], set_types (<[k := f.1.2]> (types pre.1.2)) pre.1.2, f.2).
Proof.
  cbn [fetch_prefix].
  destruct (fetch_prefix pf k p q s) as [[rs pk] sk]. cbn [fst snd].
  by destruct (memtrack_proc_get_type pf (types pk !!! k) q (Z.of_nat k) sk)
    as [[r t] s1].
Qed.

(** The rounds before index [k] leave the entries from [k] on alone. *)
Lemma fetch_prefix_frame pf k : ∀ p q s j,
  (k ≤ j)%nat → types (fetch_prefix pf k p q s).1.2 !! j = types p !! j.
Proof.
  induction k as [|k IH]; intros p q s j Hj; [done|].
  rewrite fetch_prefix_S. cbv zeta. simpl.
  rewrite list_lookup_insert_ne by lia. apply IH. lia.
Qed.

(** The call returns what the first failing fetch returned, with the snapshot
    and the state as that fetch left them. *)
Lemma memtrack_proc_get_first_error pf p q s (k : nat) :
  let pre := fetch_prefix pf k (set_pid q p) q s in
  let failing :=
    memtrack_proc_get_type pf (types pre.1.2 !!! k) q (Z.of_nat k) pre.2 in
  (k < Z.to_nat NUM_TYPES)%nat →
  Forall (λ r, r = 0) pre.1.1 →
  failing.1.1 ≠ 0 →
  memtrack_proc_get pf (Some p) q s
  = ((failing.1.1,
      Some (set_types (<[k := failing.1.2]> (types pre.1.2)) pre.1.2)),
     failing.2).
Proof.
  intros pre failing Hk Hok Hfail.
  rewrite memtrack_proc_get_Some. cbv zeta.
  replace (Z.to_nat NUM_TYPES) with (k + S (Z.to_nat NUM_TYPES - S k))%nat
    by lia.
  rewrite memtrack_proc_get_loop_prefix by done. fold pre.
  rewrite memtrack_proc_get_loop_step. cbv zeta. fold failing.
  by rewrite bool_decide_eq_true_2 by done.
Qed.

(** X7. When [memtrack_proc_get] stops at a failing type, the entries of the
    later types are as they were before the call: if the fetches for the first
    [k] types return 0 and the one for type [k] does not, every entry after
    index [k] of the snapshot left behind is the entry the caller passed in. *)
Theorem memtrack_proc_get_failure_frame pf p q s (k : nat) :
  let pre := fetch_prefix pf k (set_pid q p) q s in
  let failing :=
    memtrack_proc_get_type pf (types pre.1.2 !!! k) q (Z.of_nat k) pre.2 in
  (k < Z.to_nat NUM_TYPES)%nat →
  Forall (λ r, r = 0) pre.1.1 →
  failing.1.1 ≠ 0 →
  ∃ p', (memtrack_proc_get pf (Some p) q s).1.2 = Some p'
    ∧ ∀ j, (k < j)%nat → types p' !! j = types p !! j.
Proof.
  intros pre failing Hk Hok Hfail.
  rewrite (memtrack_proc_get_first_error pf p q s k Hk Hok Hfail).
  fold pre failing. eexists. split; [reflexivity|].
  intros j Hj. simpl. rewrite list_lookup_insert_ne by lia.
  subst pre. rewrite fetch_prefix_frame by lia. done.
Qed.

Lemma memtrack_proc_get_failure_frame_witness :
  ((2 < Z.to_nat NUM_TYPES)%nat
   ∧ Forall (λ r, r = 0)
       (fetch_prefix graphics_failing_platform 2 (set_pid 1234 scenario) 1234
          initial_state).1.1)
  ∧ ∃ p', (memtrack_proc_get graphics_failing_platform (Some scenario) 1234
             initial_state).1.2 = Some p'
      ∧ ∀ j, (2 < j)%nat → types p' !! j = types scenario !! j.
Proof.
  assert (2 < Z.to_nat NUM_TYPES)%nat as Hk by (vm_compute; lia).
  assert (Forall (λ r, r = 0)
            (fetch_prefix graphics_failing_platform 2 (set_pid 1234 scenario)
               1234 initial_state).1.1) as Hok
    by (repeat constructor).
  split; [done|].
  apply (memtrack_proc_get_failure_frame graphics_failing_platform scenario
           1234 initial_state 2 Hk Hok).
  discriminate.
Defined.

(** Either the first [k] fetches all return 0 or the call does not. *)
Lemma memtrack_proc_get_prefix_or_error pf p q s (k : nat) :
  (k ≤ Z.to_nat NUM_TYPES)%nat →
  Forall (λ r, r = 0) (fetch_prefix pf k (set_pid q p) q s).1.1
  ∨ (memtrack_proc_get pf (Some p) q s).1.1 ≠ 0.
Proof.
  induction k as [|k IH]; intros Hk; [left; constructor|].
  destruct IH as [Hok|Herr]; [lia| |by right].
  set (pre := fetch_prefix pf k (set_pid q p) q s) in *.
  set (f := memtrack_proc_get_type pf (types pre.1.2 !!! k) q (Z.of_nat k) pre.2).
  destruct (decide (f.1.1 = 0)) as [Hz|Hnz].
  - left. rewrite fetch_prefix_S. cbv zeta. fold pre f. simpl.
    apply Forall_app. split; [done|]. by constructor.
  - right. rewrite (memtrack_proc_get_first_error pf p q s k); [done|lia|done|done].
Qed.

(** X8. [memtrack_proc_get] on a snapshot returns 0 exactly when the fetches
    for all [NUM_TYPES] types, made one after the other, return 0.  It has then
    made all of them: the snapshot and the state are those the last fetch
    left, and the providers were called once per type, in enumeration order
    and with the pid given. *)
Theorem memtrack_proc_get_succeeds_iff pf p q s :
  let all := fetch_prefix pf (Z.to_nat NUM_TYPES) (set_pid q p) q s in
  ((memtrack_proc_get pf (Some p) q s).1.1 = 0 ↔ Forall (λ r, r = 0) all.1.1)
  ∧ (Forall (λ r, r = 0) all.1.1 →
     memtrack_proc_get pf (Some p) q s = ((0, Some all.1.2), all.2)
     ∧ provider_calls (trace all.2)
       = provider_calls (trace s)
         ++ ((λ t, (q, MemtrackType_val t)) <$> all_MemtrackType)).
Proof.
  intros all.
  assert (Forall (λ r, r = 0) all.1.1 →
          memtrack_proc_get pf (Some p) q s = ((0, Some all.1.2), all.2))
    as Hdone.
  { intros Hok. rewrite memtrack_proc_get_Some. cbv zeta.
    pose proof (memtrack_proc_get_loop_prefix pf (Z.to_nat NUM_TYPES) 0
                  (set_pid q p) q s Hok) as Hloop.
    rewrite Nat.add_0_r in Hloop. by rewrite Hloop. }
  split; [split|].
  - intros Hret.
    destruct (memtrack_proc_get_prefix_or_error pf p q s (Z.to_nat NUM_TYPES))
      as [Hok|Herr]; [lia|done|done].
  - intros Hok. by rewrite (Hdone Hok).
  - intros Hok. split; [by apply Hdone|].
    subst all. by rewrite fetch_prefix_calls by (done || lia).
Qed.

Lemma memtrack_proc_get_succeeds_iff_witness :
  Forall (λ r, r = 0)
    (fetch_prefix legacy_platform (Z.to_nat NUM_TYPES)
       (set_pid 1234 memtrack_proc_new) 1234 initial_state).1.1
  ∧ (memtrack_proc_get legacy_platform (Some memtrack_proc_new) 1234
       initial_state).1.1 = 0.
Proof.
  assert (Forall (λ r, r = 0)
            (fetch_prefix legacy_platform (Z.to_nat NUM_TYPES)
               (set_pid 1234 memtrack_proc_new) 1234 initial_state).1.1) as Hok
    by (repeat constructor).
  split; [done|].
  exact (proj2 (proj1 (memtrack_proc_get_succeeds_iff legacy_platform
                         memtrack_proc_new 1234 initial_state)) Hok).
Defined.

Lemma insert_lookup_total_id (l : list memtrack_proc_type) i :
  <[i := l !!! i]> l = l.
Proof.
  destruct (l !! i) as [x|] eqn:Hl.
  - apply list_insert_id. by rewrite (list_lookup_total_correct _ _ _ Hl).
  - apply list_insert_ge. by apply lookup_ge_None.
Qed.

(** X9. Where neither provider resolves, [memtrack_proc_get] on a snapshot
    returns -1 after the first type: apart from the pid it records, the
    snapshot is the one passed in, with every record list as it was, and no
    provider has been called. *)
Theorem memtrack_proc_get_without_provider pf p q s :
  statics_agree pf s →
  resolved_aidl pf = None →
  resolved_hidl pf = None →
  (memtrack_proc_get pf (Some p) q s).1 = (-1, Some (set_pid q p))
  ∧ provider_calls (trace (memtrack_proc_get pf (Some p) q s).2)
    = provider_calls (trace s).
Proof.
  intros Hagree Hno_aidl Hno_hidl.
  destruct (get_aidl_instance_run pf s) as (ra & s1 & Haidl & Hcalls1 & Hres1).
  destruct (Hres1 Hagree) as [-> Hagree1]. rewrite Hno_aidl in Haidl.
  destruct (get_hidl_instance_run pf s1) as (rh & s2 & Hhidl & Hcalls2 & Hres2).
  destruct (Hres2 Hagree1) as [-> _]. rewrite Hno_hidl in Hhidl.
  rewrite memtrack_proc_get_Some. cbv zeta.
  change (Z.to_nat NUM_TYPES) with 5%nat.
  rewrite memtrack_proc_get_loop_step. cbv zeta.
  rewrite (fetch_unavailable pf _ q _ _ s1 s2 Haidl Hhidl). simpl.
  rewrite insert_lookup_total_id. split; [done|congruence].
Qed.

Lemma memtrack_proc_get_without_provider_witness :
  (statics_agree bare_platform initial_state
   ∧ resolved_aidl bare_platform = None
   ∧ resolved_hidl bare_platform = None)
  ∧ (memtrack_proc_get bare_platform (Some scenario) 77 initial_state).1
    = (-1, Some (set_pid 77 scenario)).
Proof.
  pose proof (initial_state_agrees bare_platform) as Hagree.
  split; [by split_and!|].
  exact (proj1 (memtrack_proc_get_without_provider bare_platform scenario 77
                  initial_state Hagree eq_refl eq_refl)).
Defined.

(** With a modern provider that answers every call with success, whatever
    happened before, the loop fills the entries from index [i] on with what
    the provider answers and leaves the ones before alone. *)
Lemma memtrack_proc_get_loop_modern pf svc q n : ∀ i p s,
  statics_agree pf s →
  resolved_aidl pf = Some svc →
  stateless svc →
  (∀ j, (i ≤ j < i + n)%nat → status_isOk (svc [] q (Z.of_nat j)) = true) →
  (i + n ≤ length (types p))%nat →
  (i + n ≤ 5)%nat →
  let res := memtrack_proc_get_loop pf n i p q s in
  res.1.1 = 0
  ∧ (∀ j, (j < i)%nat → types res.1.2 !! j = types p !! j)
  ∧ (∀ j, (i ≤ j < i + n)%nat →
       records <$> types res.1.2 !! j
       = Some (copied aidl_size aidl_flags <$> aidl_records (svc [] q (Z.of_nat j)))).
Proof.
  induction n as [|n IH]; intros i p s Hagree Hres Hstateless Hok Hlen Hfive.
  { simpl. split_and!; [done|done|]. intros j Hj. lia. }
  intros res. subst res. rewrite memtrack_proc_get_loop_step. cbv zeta.
  rewrite (fetch_modern_resolved pf _ q _ s svc Hagree Hres).
  rewrite to_int_to_uint32_small by lia.
  rewrite (Hstateless _ [] q (Z.of_nat i)), Hok by lia.
  cbn [fst snd]. rewrite bool_decide_eq_false_2 by (intros Hne; by apply Hne).
  set (t := store_records aidl_size aidl_flags _ _).
  set (p1 := set_types (<[i := t]> (types p)) p).
  set (s1 := after _ _).
  assert (statics_agree pf s1) as Hagree1.
  { subst s1. apply statics_agree_after.
    by apply get_aidl_instance_resolved. }
  destruct (IH (S i) p1 s1 Hagree1 Hres Hstateless) as (Hret & Hbefore & Hfrom).
  { intros j Hj. apply Hok. lia. }
  { subst p1. simpl. rewrite length_insert. lia. }
  { lia. }
  split_and!.
  - done.
  - intros j Hj. rewrite Hbefore by lia. subst p1. simpl.
    by rewrite list_lookup_insert_ne by lia.
  - intros j Hj. destruct (decide (j = i)) as [->|Hne].
    + rewrite Hbefore by lia. subst p1. simpl.
      rewrite list_lookup_insert_eq by lia. simpl. f_equal.
      subst t. apply records_store_records.
    + apply Hfrom. lia.
Qed.

Lemma selected_records_ext p (f : MemtrackType → list MemtrackRecord) ts mask :
  (∀ t, records_of p t = f t) →
  selected_records p ts mask = ts ≫= (λ t, filter (has_all_flags mask) (f t)).
Proof.
  intros Hf. unfold selected_records.
  induction ts as [|t ts IH]; [done|]. by rewrite !bind_cons, IH, Hf.
Qed.

Lemma enumerator_index t :
  (Z.to_nat (MemtrackType_val t) < 5)%nat
  ∧ Z.of_nat (Z.to_nat (MemtrackType_val t)) = MemtrackType_val t.
Proof. destruct t; simpl; lia. Qed.

Lemma index_enumerator j :
  (j < 5)%nat → ∃ t, Z.of_nat j = MemtrackType_val t.
Proof.
  intros Hj.
  destruct j as [|[|[|[|[|j]]]]];
    [by exists OTHER|by exists GL|by exists GRAPHICS|by exists MULTIMEDIA
    |by exists CAMERA|lia].
Qed.

(** X10. Population and aggregation together.  With a modern provider whose
    answers do not depend on what happened before and that answers each of the
    five types with success, [memtrack_proc_get] on a well-formed snapshot
    returns 0 and leaves a well-formed snapshot that holds, under each type,
    the records the provider answers for it; every sum over that snapshot is
    then the sum over the provider's records that carry the mask, in ssize_t
    arithmetic. *)
Theorem populate_then_sum pf svc p q s :
  statics_agree pf s →
  resolved_aidl pf = Some svc →
  stateless svc →
  (∀ t, status_isOk (svc [] q (MemtrackType_val t)) = true) →
  proc_wf p →
  ∃ p', (memtrack_proc_get pf (Some p) q s).1 = (0, Some p')
    ∧ proc_wf p'
    ∧ (∀ t, records_of p' t = stored_reply svc q t)
    ∧ ∀ ssize_bits (ts : list MemtrackType) mask,
        1 ≤ ssize_bits ≤ 64 →
        memtrack_proc_sum ssize_bits p' (MemtrackType_val <$> ts) mask
        = Some (to_ssize ssize_bits
                  (total_size
                     (ts ≫= λ t, filter (has_all_flags mask)
                                   (stored_reply svc q t)))).
Proof.
  intros Hagree Hres Hstateless Hok Hwf.
  assert (proc_wf (set_pid q p)) as Hwf0 by done.
  destruct (memtrack_proc_get_loop_modern pf svc q 5 0 (set_pid q p) s
              Hagree Hres Hstateless) as (Hret & _ & Hfrom).
  { intros j Hj. destruct (index_enumerator j) as [t ->]; [lia|]. apply Hok. }
  { rewrite Hwf0. vm_compute. lia. }
  { lia. }
  pose proof (memtrack_proc_get_loop_wf pf 5 0 (set_pid q p) q s Hwf0) as Hwf'.
  rewrite memtrack_proc_get_Some. cbv zeta.
  change (Z.to_nat NUM_TYPES) with 5%nat.
  set (res := memtrack_proc_get_loop pf 5 0 (set_pid q p) q s) in *.
  exists res.1.2.
  assert (∀ t, records_of res.1.2 t = stored_reply svc q t) as Hrecs.
  { intros t. unfold records_of, stored_reply.
    destruct (enumerator_index t) as [Hlt Hidx].
    specialize (Hfrom (Z.to_nat (MemtrackType_val t))). rewrite Hidx in Hfrom.
    destruct (types res.1.2 !! Z.to_nat (MemtrackType_val t)) as [ty|];
      simpl in *; [|by discriminate Hfrom; lia].
    assert (Some (records ty) = Some
              (copied aidl_size aidl_flags
                 <$> aidl_records (svc [] q (MemtrackType_val t)))) as [= ->]
      by (apply Hfrom; lia).
    done. }
  split_and!.
  - by rewrite Hret.
  - done.
  - done.
  - intros ssize_bits ts mask Hw.
    rewrite memtrack_proc_sum_total by done.
    by rewrite (selected_records_ext _ (stored_reply svc q)).
Qed.

Lemma populate_then_sum_witness :
  (statics_agree modern_platform initial_state
   ∧ resolved_aidl modern_platform = Some modern_service
   ∧ stateless modern_service
   ∧ (∀ t, status_isOk (modern_service [] 1234 (MemtrackType_val t)) = true)
   ∧ proc_wf memtrack_proc_new)
  ∧ ∃ p', (memtrack_proc_get modern_platform (Some memtrack_proc_new) 1234
             initial_state).1 = (0, Some p')
      ∧ memtrack_proc_graphics_total 64 p' = Some 150
      ∧ memtrack_proc_graphics_pss 64 p' = Some 50.
Proof.
  pose proof (initial_state_agrees modern_platform) as Hagree.
  assert (stateless modern_service) as Hstateless by (by intros ? ? ? ?).
  assert (∀ t, status_isOk (modern_service [] 1234 (MemtrackType_val t)) = true)
    as Hok by done.
  assert (proc_wf memtrack_proc_new) as Hwf by reflexivity.
  split; [by split_and!|].
  destruct (populate_then_sum modern_platform modern_service memtrack_proc_new
              1234 initial_state Hagree eq_refl Hstateless Hok Hwf)
    as (p' & Hget & _ & _ & Hsum).
  exists p'. split; [exact Hget|].
  assert (1 ≤ 64 ≤ 64) as Hw by lia.
  split.
  - exact (Hsum 64 [GRAPHICS] 0 Hw).
  - exact (Hsum 64 [GRAPHICS] 4 Hw).
Defined.

(** ** Further properties: the aggregator *)

Lemma total_size_filter_le (P Q : MemtrackRecord → Prop)
    `{∀ r, Decision (P r)} `{∀ r, Decision (Q r)} (l : list MemtrackRecord) :
  (∀ r, r ∈ l → 0 ≤ sizeInBytes r) →
  (∀ r, P r → Q r) →
  0 ≤ total_size (filter P l) ≤ total_size (filter Q l)
  ∧ total_size (filter Q l) ≤ total_size l.
Proof.
  intros Hpos HPQ. induction l as [|r l IH]; [simpl; lia|].
  assert (0 ≤ sizeInBytes r) by (apply Hpos; left).
  destruct IH as [IH1 IH2]; [intros r' Hr'; apply Hpos; by right|].
  rewrite !filter_cons.
  destruct (decide (P r)) as [HP|HP], (decide (Q r)) as [HQ|HQ]; simpl;
    try lia.
  by destruct HQ; apply HPQ.
Qed.

Lemma has_all_flags_weaken m1 m2 r :
  Z.land m2 m1 = m1 → has_all_flags m2 r → has_all_flags m1 r.
Proof.
  unfold has_all_flags. intros Hsub Hr.
  by rewrite <- Hsub, Z.land_assoc, Hr.
Qed.

Lemma total_size_selected_le p ts m1 m2 :
  Z.land m2 m1 = m1 →
  (∀ t r, t ∈ ts → r ∈ records_of p t → 0 ≤ sizeInBytes r) →
  0 ≤ total_size (selected_records p ts m2) ≤ total_size (selected_records p ts m1)
  ∧ total_size (selected_records p ts m1) ≤ total_size (ts ≫= records_of p).
Proof.
  intros Hsub Hpos. unfold selected_records.
  induction ts as [|t ts IH]; [simpl; lia|].
  destruct IH as [IH1 IH2].
  { intros t' r Ht'. apply Hpos. by right. }
  rewrite !bind_cons, !total_size_app.
  destruct (total_size_filter_le (has_all_flags m2) (has_all_flags m1)
              (records_of p t)) as [Hle1 Hle2].
  { intros r Hr. apply (Hpos t); [left|done]. }
  { intros r. by apply has_all_flags_weaken. }
  lia.
Qed.

(** X11. Asking for more flags never gives more.  Over a populated snapshot
    whose record sizes under the selected types are not negative and total less
    than ssize_t can hold, the sum for a mask that contains another mask is at
    most the sum for the contained mask, and not negative; so each pss query
    is between 0 and its total query. *)
Theorem memtrack_proc_sum_shrinks_with_mask
    ssize_bits p (ts : list MemtrackType) m1 m2 :
  1 ≤ ssize_bits ≤ 64 →
  proc_wf p →
  Z.land m2 m1 = m1 →
  (∀ t r, t ∈ ts → r ∈ records_of p t → 0 ≤ sizeInBytes r) →
  total_size (ts ≫= records_of p) < 2 ^ (ssize_bits - 1) →
  ∃ a b,
    memtrack_proc_sum ssize_bits p (MemtrackType_val <$> ts) m1 = Some a
    ∧ memtrack_proc_sum ssize_bits p (MemtrackType_val <$> ts) m2 = Some b
    ∧ 0 ≤ b ≤ a.
Proof.
  intros Hw Hwf Hsub Hpos Hfit.
  destruct (total_size_selected_le p ts m1 m2 Hsub Hpos) as [Hle Hall].
  assert (0 < 2 ^ (ssize_bits - 1)) by (apply Z.pow_pos_nonneg; lia).
  eexists _, _. rewrite !memtrack_proc_sum_total by done.
  split; [reflexivity|]. split; [reflexivity|].
  unfold to_ssize. rewrite !to_signed_fits by (unfold fits_signed; lia). done.
Qed.

Lemma memtrack_proc_sum_shrinks_with_mask_witness :
  (1 ≤ 64 ≤ 64
   ∧ proc_wf scenario
   ∧ Z.land 4 0 = 0
   ∧ (∀ t r, t ∈ [GRAPHICS] → r ∈ records_of scenario t → 0 ≤ sizeInBytes r)
   ∧ total_size ([GRAPHICS] ≫= records_of scenario) < 2 ^ (64 - 1))
  ∧ ∃ a b,
      memtrack_proc_sum 64 scenario (MemtrackType_val <$> [GRAPHICS]) 0 = Some a
      ∧ memtrack_proc_sum 64 scenario (MemtrackType_val <$> [GRAPHICS]) 4 = Some b
      ∧ 0 ≤ b ≤ a.
Proof.
  assert (1 ≤ 64 ≤ 64) as Hw by lia.
  assert (proc_wf scenario) as Hwf by reflexivity.
  assert (∀ t r, t ∈ [GRAPHICS] → r ∈ records_of scenario t → 0 ≤ sizeInBytes r)
    as Hpos.
  { intros t r ->%list_elem_of_singleton Hr. vm_compute in Hr.
    repeat (apply elem_of_cons in Hr as [->|Hr]; [simpl; lia|]).
    by apply elem_of_nil in Hr. }
  assert (total_size ([GRAPHICS] ≫= records_of scenario) < 2 ^ (64 - 1))
    as Hfit by (vm_compute; done).
  split; [by split_and!|].
  exact (memtrack_proc_sum_shrinks_with_mask 64 scenario [GRAPHICS] 0 4
           Hw Hwf eq_refl Hpos Hfit).
Defined.

Lemma types_at_other_entry p (t : Z) (i : nat) x q :
  to_int t ≠ Z.of_nat i →
  types_at (set_pid q (set_types (<[i := x]> (types p)) p)) t = types_at p t.
Proof.
  intros Hne. unfold types_at. simpl.
  destruct ((0 <=? to_int t) && (to_int t <? NUM_TYPES)) eqn:Hin; [|done].
  apply andb_prop in Hin as [Hlo%Z.leb_le _].
  apply list_lookup_insert_ne. lia.
Qed.

(** X12. A sum reads the entries of the types it is asked for and nothing
    else: rewriting the entry of another type, or the pid, leaves the result
    as it was. *)
Theorem memtrack_proc_sum_ignores_other_entries
    ssize_bits p (ts : list Z) mask (i : nat) x q :
  (∀ t, t ∈ ts → to_int t ≠ Z.of_nat i) →
  memtrack_proc_sum ssize_bits
    (set_pid q (set_types (<[i := x]> (types p)) p)) ts mask
  = memtrack_proc_sum ssize_bits p ts mask.
Proof.
  intros Hother. unfold memtrack_proc_sum. generalize 0.
  induction ts as [|t ts IH]; intros sum; [done|].
  cbn [sum_types]. rewrite types_at_other_entry by (apply Hother; left).
  destruct (types_at p t) as [ty|]; [|done].
  apply IH. intros t' Ht'. apply Hother. by right.
Qed.

Lemma memtrack_proc_sum_ignores_other_entries_witness :
  (∀ t, t ∈ [2] → to_int t ≠ Z.of_nat 1)
  ∧ memtrack_proc_sum 64
      (set_pid 5 (set_types
                    (<[1%nat := mkProcType 0 [mkRecord 999 4]]> (types scenario))
                    scenario)) [2] 4
    = memtrack_proc_sum 64 scenario [2] 4.
Proof.
  assert (∀ t, t ∈ [2] → to_int t ≠ Z.of_nat 1) as Hother.
  { intros t ->%list_elem_of_singleton. vm_compute. discriminate. }
  split; [done|].
  exact (memtrack_proc_sum_ignores_other_entries 64 scenario [2] 4 1
           (mkProcType 0 [mkRecord 999 4]) 5 Hother).
Defined.

(** ** Further properties: the device info query *)

(** X13. [memtrack_gpu_device_info] knows the modern provider only.  It never
    looks up or calls the legacy service and logs nothing; where the modern
    provider does not resolve it returns false, leaves the vector alone and
    makes no call, whether or not a legacy provider exists; where it resolves
    it makes one call and returns whether that call succeeded. *)
Theorem memtrack_gpu_device_info_no_fallback
    {DeviceInfo : Type} pf (getGpuDeviceInfo : gpu_method DeviceInfo)
    (device_info : list DeviceInfo) g :
  statics_agree pf (gpu_base g) →
  let s1 := (get_aidl_instance pf (gpu_base g)).2 in
  let res := memtrack_gpu_device_info pf getGpuDeviceInfo device_info g in
  legacy_untouched (gpu_base g) (gpu_base res.2)
  ∧ trace (gpu_base res.2) = trace s1
  ∧ (resolved_aidl pf = None →
     res.1 = (false, device_info) ∧ gpu_calls res.2 = gpu_calls g)
  ∧ (∀ svc, resolved_aidl pf = Some svc →
       res.1.1
       = gpu_isOk (getGpuDeviceInfo svc (mkGpuState s1 (gpu_calls g)) device_info)
       ∧ gpu_calls res.2 = gpu_calls g ++ [trace s1]).
Proof.
  intros Hagree s1 res. subst res. unfold memtrack_gpu_device_info.
  destruct (get_aidl_instance_resolved pf (gpu_base g) Hagree) as [Hrun _].
  pose proof (get_aidl_instance_legacy_untouched pf (gpu_base g)) as Hlegacy.
  fold s1 in Hrun, Hlegacy. rewrite Hrun.
  destruct (resolved_aidl pf) as [svc|]; simpl.
  - split_and!; [done|done|done|]. by intros ? [= <-].
  - split_and!; [done|done|done|]. by intros ? [=].
Qed.

Lemma memtrack_gpu_device_info_no_fallback_witness :
  statics_agree legacy_platform (gpu_base (mkGpuState initial_state []))
  ∧ (memtrack_gpu_device_info legacy_platform
       (λ _ _ _, mkGpuReply true [7%nat]) [1%nat; 2%nat]
       (mkGpuState initial_state [])).1
    = (false, [1%nat; 2%nat]).
Proof.
  pose proof (initial_state_agrees legacy_platform) as Hagree.
  split; [done|].
  exact (proj1 (proj1 (proj2 (proj2
    (memtrack_gpu_device_info_no_fallback legacy_platform
       (λ _ _ _, mkGpuReply true [7%nat]) [1%nat; 2%nat]
       (mkGpuState initial_state []) Hagree))) eq_refl)).
Defined.
